(** * Workspace dependency graph and change-impact engine (pymono scripts)

    Shallow embedding of [scripts/affected.py], [scripts/detect_changes.py],
    [scripts/check_deps.py] and [scripts/dep_graph.py], and the properties the
    specification states about them.

    Python values are modelled as follows.
    - [str] is a list of Unicode code points, so that [str.strip] can be given
      Python's own (Unicode) notion of white space.
    - [set] is stdpp's [gset]; a [dict] that is only read with [.get] is a
      [gmap]; the [members] dict, whose iteration order the scripts rely on,
      is an association list in insertion order.
    - A loop that Rocq cannot see terminating takes fuel; a result [None]
      (or [OutOfFuel]) means that the fuel did not suffice, and termination
      is proved separately.
    - A recursive function takes the number of frames that the interpreter's
      recursion limit leaves for it, and raises [RecursionError] when a call
      finds none left. *)

From Stdlib Require Import String Ascii NArith.
From stdpp Require Import gmap list relations sorting.

#[local] Set Warnings "-clear-no-such-hyp".

Local Open Scope N_scope.
Local Open Scope list_scope.
Local Open Scope nat_scope.

(** ** Python strings *)

Module Py.

Abbreviation char := N (only parsing).
Abbreviation str := (list N) (only parsing).

(** An ASCII literal as a Python string. *)
Definition lit (s : string) : str := N_of_ascii <$> list_ascii_of_string s.

Definition chr (a : ascii) : char := N_of_ascii a.

(** [str.isspace] for one code point: the characters [str.strip()] removes. *)
Definition isspace (c : char) : bool :=
  ((9 <=? c) && (c <=? 13) || (28 <=? c) && (c <=? 32)
   || (c =? 133) || (c =? 160) || (c =? 5760)
   || (8192 <=? c) && (c <=? 8202)
   || (c =? 8232) || (c =? 8233) || (c =? 8239) || (c =? 8287)
   || (c =? 12288))%N.

Fixpoint lstrip (s : str) : str :=
  match s with
  | [] => []
  | c :: s' => if isspace c then lstrip s' else s
  end.

Fixpoint rstrip (s : str) : str :=
  match s with
  | [] => []
  | c :: s' =>
      match rstrip s' with
      | [] => if isspace c then [] else [c]
      | r => c :: r
      end
  end.

(** [s.strip()] *)
Definition strip (s : str) : str := rstrip (lstrip s).

(** [s.split(sep)] for a one-character separator. *)
Fixpoint split (sep : char) (s : str) : list str :=
  match s with
  | [] => [[]]
  | c :: s' =>
      if (c =? sep)%N then [] :: split sep s'
      else match split sep s' with
           | [] => [[c]]
           | piece :: pieces => (c :: piece) :: pieces
           end
  end.

(** [l[0]] on the result of [split], which is never empty. *)
Definition item0 (l : list str) : str := hd [] l.

(** [s.startswith(p)] *)
Fixpoint startswith (s p : str) {struct p} : bool :=
  match p with
  | [] => true
  | a :: p' =>
      match s with
      | [] => false
      | b :: s' => (a =? b)%N && startswith s' p'
      end
  end.

(** [sub in s] *)
Fixpoint contains (sub s : str) : bool :=
  startswith s sub ||
  match s with
  | [] => false
  | _ :: s' => contains sub s'
  end.

(** [sep.join(l)] *)
Fixpoint join (sep : str) (l : list str) : str :=
  match l with
  | [] => []
  | [x] => x
  | x :: l' => x ++ sep ++ join sep l'
  end.

(** [l.pop()]: the list without its last element, and that element. *)
Fixpoint pop {A} (l : list A) : option (list A * A) :=
  match l with
  | [] => None
  | x :: l' =>
      match pop l' with
      | None => Some ([], x)
      | Some (r, y) => Some (x :: r, y)
      end
  end.

(** [l.index(x)] *)
Fixpoint index (x : str) (l : list str) : option nat :=
  match l with
  | [] => None
  | y :: l' => if decide (y = x) then Some 0 else S <$> index x l'
  end.

(** The longest prefix of [s] none of whose characters satisfies [stop]. *)
Fixpoint before (stop : char -> bool) (s : str) : str :=
  match s with
  | [] => []
  | c :: s' => if stop c then [] else c :: before stop s'
  end.

(** Truth value of a string: the empty string is false. *)
Definition truthy (s : str) : bool :=
  match s with [] => false | _ => true end.

End Py.

Import Py.

(** ** The dependency specifier normalizer *)

(** [parse_dep_name], identical in the four scripts. *)
Definition parse_dep_name (dep : str) : str :=
  strip
    (item0 (split (chr ";")
    (item0 (split (chr "!")
    (item0 (split (chr "=")
    (item0 (split (chr "<")
    (item0 (split (chr ">")
    (item0 (split (chr "[") dep)))))))))))).

(** The delimiter set of the specification. *)
Definition DELIMITERS : list char :=
  [chr "["; chr ">"; chr "<"; chr "="; chr "!"; chr ";"].

Definition is_delimiter (c : char) : bool := bool_decide (c ∈ DELIMITERS).

(** Following the specification's words: the position of the earliest
    occurrence of any delimiter, if there is one. *)
Fixpoint first_delimiter (s : str) : option nat :=
  match s with
  | [] => None
  | c :: s' => if is_delimiter c then Some 0 else S <$> first_delimiter s'
  end.

(** Following the specification's words: the prefix before the earliest
    delimiter, the whole string when there is none, then trimmed. *)
Definition normalize_spec (s : str) : str :=
  strip (match first_delimiter s with
         | Some i => take i s
         | None => s
         end).

(** ** Workspace members *)

(** A member's manifest path relative to the workspace root.
    [discover_members] only yields [ROOT/d1/.../dn/pyproject.toml] with
    [n >= 1] (the root manifest is skipped), so the relative path is given by
    its first directory [d1] and the remaining directories [d2 .. dn]. *)
Record rel_toml := { top_dir : str; sub_dirs : list str }.

(** [toml_path.relative_to(ROOT).parts] *)
Definition parts (p : rel_toml) : list str :=
  top_dir p :: sub_dirs p ++ [lit "pyproject.toml"].

(** [str(toml_path.parent.relative_to(ROOT))] *)
Definition pkg_dir_of (p : rel_toml) : str :=
  join (lit "/") (top_dir p :: sub_dirs p).

(** One entry of the [members] dict together with what [load_toml] reads
    from it: [data.get("project", {}).get("dependencies", [])]. *)
Record member := { toml_path : rel_toml; dependencies : list str }.

(** The [members] dict in iteration (insertion) order. *)
Abbreviation members_t := (list (str * member)) (only parsing).

(** [set(members.keys())] *)
Definition workspace_names_of (members : members_t) : gset str :=
  list_to_set members.*1.

(** [d.get(k, [])] *)
Definition get_list (d : gmap str (list str)) (k : str) : list str :=
  default [] (d !! k).

(** [d[k].append(x)] on a [defaultdict(list)] *)
Definition append_at (d : gmap str (list str)) (k x : str)
  : gmap str (list str) :=
  <[k := get_list d k ++ [x]]> d.

(** The forward edge of the workspace graph: member [q] declares a
    dependency that normalizes to the workspace name [p]. *)
Definition declares_dependency (members : members_t)
    (workspace_names : gset str) (q p : str) : Prop :=
  ∃ m dep, (q, m) ∈ members ∧ dep ∈ dependencies m ∧
           parse_dep_name dep = p ∧ p ∈ workspace_names.

(** ** affected.py / detect_changes.py *)

(** [build_reverse_deps] *)
Definition build_reverse_deps (members : members_t) : gmap str (list str) :=
  let workspace_names := workspace_names_of members in
  foldl (fun reverse '(name, m) =>
           foldl (fun reverse dep =>
                    let base := parse_dep_name dep in
                    if decide (base ∈ workspace_names)
                    then append_at reverse base name
                    else reverse)
                 reverse (dependencies m))
        ∅ members.

Definition INFRA_PATTERNS : list str :=
  [ lit "pyproject.toml"; lit ".python-version"; lit "uv.lock";
    lit "scripts/"; lit ".github/"; lit "Makefile";
    lit ".pre-commit-config.yaml" ].

(** [is_infra_file] *)
Definition is_infra_file (filepath : str) : bool :=
  if decide (filepath = lit "pyproject.toml") then true
  else existsb (fun pattern =>
                  bool_decide (filepath = pattern)
                  || startswith filepath pattern)
               (filter (fun pattern => pattern ≠ lit "pyproject.toml")
                       INFRA_PATTERNS).

(** [file_to_package]: the first member, in iteration order, whose
    directory owns the path. *)
Fixpoint file_to_package (filepath : str) (members : members_t)
  : option str :=
  match members with
  | [] => None
  | (name, m) :: members' =>
      let pkg_dir := pkg_dir_of (toml_path m) in
      if startswith filepath (pkg_dir ++ lit "/")
         || bool_decide (filepath = pkg_dir)
      then Some name
      else file_to_package filepath members'
  end.

(** The [for dependent in reverse_deps.get(pkg, [])] loop of
    [expand_dependents], on the pair [(result, queue)]. *)
Definition add_dependents (dependents : list str)
    (st : gset str * list str) : gset str * list str :=
  foldl (fun '(result, queue) dependent =>
           if decide (dependent ∈ result) then (result, queue)
           else ({[dependent]} ∪ result, queue ++ [dependent]))
        st dependents.

(** The [while queue] loop of [expand_dependents]; one unit of fuel per
    execution of the loop body. *)
Fixpoint expand_loop (fuel : nat) (reverse_deps : gmap str (list str))
    (result : gset str) (queue : list str) : option (gset str) :=
  match pop queue with
  | None => Some result
  | Some (queue', pkg) =>
      match fuel with
      | 0 => None
      | S fuel' =>
          let '(result', queue'') :=
            add_dependents (get_list reverse_deps pkg) (result, queue') in
          expand_loop fuel' reverse_deps result' queue''
      end
  end.

(** Invariant of the work queue: a package of [result] whose dependents
    have not all been added yet is still waiting in the queue. *)
Definition pending_in_queue (reverse_deps : gmap str (list str))
    (result : gset str) (queue : list str) : Prop :=
  ∀ p, p ∈ result ->
       p ∈ queue ∨ ∀ q, q ∈ get_list reverse_deps p -> q ∈ result.

(** Every name that occurs in some value of the dict. *)
Definition range_names (d : gmap str (list str)) : gset str :=
  ⋃ ((fun kv => list_to_set kv.2) <$> map_to_list d).

(** [expand_dependents].  [list(changed)] enumerates the set in an order
    Python leaves unspecified; the model takes [elements changed], and
    [expand_loop_order_irrelevant] shows that the order does not matter.
    The fuel is enough for every package to pass through the queue once. *)
Definition expand_dependents (changed : gset str)
    (reverse_deps : gmap str (list str)) : option (gset str) :=
  expand_loop (size (changed ∪ range_names reverse_deps)) reverse_deps
              changed (elements changed).

(** The loop of [main] that collects [directly_changed]. *)
Definition directly_changed_of (changed_files : list str)
    (members : members_t) : gset str :=
  foldl (fun directly_changed f =>
           match file_to_package f members with
           | Some pkg =>
               if truthy pkg then {[pkg]} ∪ directly_changed
               else directly_changed
           | None => directly_changed
           end)
        ∅ changed_files.

(** [main] of affected.py after argument parsing and [get_changed_files]:
    the pair [(affected, run_all)] that is handed to [build_output]. *)
Definition main (force_all : bool) (members : members_t)
    (changed_files : list str) : option (gset str * bool) :=
  if force_all then Some (workspace_names_of members, true)
  else
    let infra_changed := existsb is_infra_file changed_files in
    if infra_changed then Some (workspace_names_of members, true)
    else
      let directly_changed := directly_changed_of changed_files members in
      let reverse_deps := build_reverse_deps members in
      affected ← expand_dependents directly_changed reverse_deps;
      Some (affected, false).

(** ** check_deps.py *)

(** Outcome of code that may raise: a value, a Python exception, or the
    model's fuel running out. *)
Inductive exn := IndexError | KeyError | ValueError | RecursionError.

Inductive res (A : Type) :=
| Ok (a : A)
| Raise (e : exn)
| OutOfFuel.

Arguments Ok {A} a.
Arguments Raise {A} e.
Arguments OutOfFuel {A}.

#[global] Instance res_ret : MRet res := fun A a => Ok a.
#[global] Instance res_bind : MBind res := fun A B f r =>
  match r with
  | Ok a => f a
  | Raise e => Raise e
  | OutOfFuel => OutOfFuel
  end.

(** A [for x in l] loop whose body may raise. *)
Fixpoint for_each {A S} (body : A -> S -> res S) (l : list A) (st : S)
  : res S :=
  match l with
  | [] => Ok st
  | x :: l' => st' ← body x st; for_each body l' st'
  end.

(** [classify_member] *)
Definition classify_member (toml_path : rel_toml) : option str :=
  let parts := parts toml_path in
  if decide (item0 parts = lit "apps") then Some (lit "app")
  else if decide (item0 parts = lit "libs") then Some (lit "lib")
  else None.

(** The adjacency list built at the start of [check_no_cycles]. *)
Definition build_graph (members : members_t) (workspace_names : gset str)
  : gmap str (list str) :=
  foldl (fun graph '(name, m) =>
           foldl (fun graph dep =>
                    let base := parse_dep_name dep in
                    if decide (base ∈ workspace_names)
                    then append_at graph name base
                    else graph)
                 graph (dependencies m))
        ∅ members.

(** The variables the nested [dfs] closes over and mutates, and the [path]
    list, which every call shares and updates in place. *)
Record dfs_state := {
  visited : gset str;
  in_stack : gset str;
  cycles : list str;
  path : list str
}.

(** [" → "], the separator of a reported chain (U+2192 between spaces). *)
Definition ARROW : str := lit " " ++ [8594%N] ++ lit " ".

Definition cycle_message (chain : list str) : str :=
  lit "circular dependency: " ++ join ARROW chain.

(** The nested function [dfs].  It is plain Python recursion, one frame for
    every call: [frames] is the number of frames the recursion limit of the
    interpreter still allows, and a call that finds none raises
    [RecursionError] before its body runs. *)
Fixpoint dfs (graph : gmap str (list str)) (frames : nat) (node : str)
    (st : dfs_state) : res dfs_state :=
  match frames with
  | 0 => Raise RecursionError
  | S frames' =>
      if decide (node ∈ in_stack st) then
        match index node (path st) with
        | None => Raise ValueError
        | Some cycle_start =>
            let cycle := cycle_message (drop cycle_start (path st) ++ [node]) in
            Ok {| visited := visited st; in_stack := in_stack st;
                  cycles := cycles st ++ [cycle]; path := path st |}
        end
      else if decide (node ∈ visited st) then Ok st
      else
        let st1 := {| visited := {[node]} ∪ visited st;
                      in_stack := {[node]} ∪ in_stack st;
                      cycles := cycles st;
                      path := path st ++ [node] |} in
        st2 ← for_each (dfs graph frames') (get_list graph node) st1;
        match pop (path st2) with
        | None => Raise IndexError
        | Some (path', _) =>
            if decide (node ∈ in_stack st2) then
              Ok {| visited := visited st2;
                    in_stack := in_stack st2 ∖ {[node]};
                    cycles := cycles st2; path := path' |}
            else Raise KeyError
        end
  end.

(** Every node the traversal can reach: the members and their edges' ends. *)
Definition graph_nodes (members : members_t) (graph : gmap str (list str))
  : gset str :=
  list_to_set members.*1 ∪ range_names graph.

(** [check_no_cycles].  Each outer call [dfs(name, [])] starts from a fresh
    empty [path].  [frames] is the depth of recursion left for [dfs]: what
    [sys.getrecursionlimit()] (1000 unless it was changed) leaves after the
    frames in use when [check_no_cycles] runs. *)
Definition check_no_cycles (frames : nat) (members : members_t)
    (workspace_names : gset str) : res (list str) :=
  let graph := build_graph members workspace_names in
  st ← for_each (fun '(name, _) st =>
                   if decide (name ∈ visited st) then Ok st
                   else dfs graph frames name
                          {| visited := visited st; in_stack := in_stack st;
                             cycles := cycles st; path := [] |})
                members
                {| visited := ∅; in_stack := ∅; cycles := []; path := [] |};
  Ok (cycles st).

(** [" — "] (U+2014 between spaces). *)
Definition DASH : str := lit " " ++ [8212%N] ++ lit " ".

Definition app_on_app_message (name base : str) : str :=
  name ++ lit " (app): cannot depend on '" ++ base ++ lit "' (another app)"
       ++ DASH ++ lit "apps should only depend on libs".

Definition lib_on_app_message (name base : str) : str :=
  name ++ lit " (lib): cannot depend on '" ++ base ++ lit "' (an app)"
       ++ DASH ++ lit "libs must not depend on apps".

(** The first loop of [check_dependency_direction] ([lib_names] is built
    there too but never read). *)
Definition app_names_of (members : members_t) : gset str :=
  foldl (fun app_names '(name, m) =>
           if decide (classify_member (toml_path m) = Some (lit "app"))
           then {[name]} ∪ app_names
           else app_names)
        ∅ members.

(** [check_dependency_direction] *)
Definition check_dependency_direction (members : members_t)
    (workspace_names : gset str) : list str :=
  let app_names := app_names_of members in
  foldl (fun errors '(name, m) =>
           let kind := classify_member (toml_path m) in
           foldl (fun errors dep =>
                    let base := parse_dep_name dep in
                    if decide (base ∈ workspace_names) then
                      let errors :=
                        if decide (kind = Some (lit "app") ∧ base ∈ app_names)
                        then errors ++ [app_on_app_message name base]
                        else errors in
                      if decide (kind = Some (lit "lib") ∧ base ∈ app_names)
                      then errors ++ [lib_on_app_message name base]
                      else errors
                    else errors)
                 errors (dependencies m))
        [] members.

(** A violation of the layering rule before it is rendered as a message:
    the declaring member, the kind it was classified as, and the workspace
    name its dependency normalizes to. *)
Record violation := { v_name : str; v_kind : str; v_base : str }.

Definition render_violation (v : violation) : str :=
  if decide (v_kind v = lit "app")
  then app_on_app_message (v_name v) (v_base v)
  else lib_on_app_message (v_name v) (v_base v).

(** The violations one dependency entry gives rise to: the body of the
    inner loop of [check_dependency_direction]. *)
Definition violations_of (workspace_names app_names : gset str)
    (name : str) (kind : option str) (dep : str) : list violation :=
  let base := parse_dep_name dep in
  if decide (base ∈ workspace_names) then
    (if decide (kind = Some (lit "app") ∧ base ∈ app_names)
     then [{| v_name := name; v_kind := lit "app"; v_base := base |}]
     else [])
    ++ (if decide (kind = Some (lit "lib") ∧ base ∈ app_names)
        then [{| v_name := name; v_kind := lit "lib"; v_base := base |}]
        else [])
  else [].

(** The list of violations behind the messages of
    [check_dependency_direction], in the same order
    ([check_dependency_direction_render]). *)
Definition direction_violations (members : members_t)
    (workspace_names : gset str) : list violation :=
  flat_map (fun '(name, m) =>
              flat_map (violations_of workspace_names (app_names_of members)
                          name (classify_member (toml_path m)))
                       (dependencies m))
           members.

(** ** dep_graph.py *)

(** [classify] *)
Definition classify (toml_path : rel_toml) : str :=
  if decide (item0 (parts toml_path) = lit "apps") then lit "app"
  else lit "lib".

(** ** Further parts of the scripts *)

(** [get_changed_files] of affected.py and detect_changes.py, as a function
    of what [git diff --name-only] returned: its exit code and its standard
    output.  The warning printed on failure is not modelled. *)
Definition get_changed_files (returncode : Z) (stdout : str) : list str :=
  if decide (returncode ≠ 0%Z) then []
  else filter (fun f => truthy f = true) (split 10%N (strip stdout)).

(** A line of output that [get_changed_files] keeps as it is: not empty,
    without a line break inside, and without white space at either end. *)
Definition plain_line (f : str) : Prop :=
  f ≠ [] ∧ (10%N ∉ f) ∧
  (∀ c t, f = c :: t -> isspace c = false) ∧
  (∀ c t, f = t ++ [c] -> isspace c = false).

(** The [edges] list of [build_graph] in dep_graph.py: one pair
    [(name, base)] for every declared dependency that normalizes to a
    workspace name, in the order of the two loops. *)
Definition dep_graph_edges (members : members_t) : list (str * str) :=
  let workspace_names := workspace_names_of members in
  foldl (fun edges '(name, m) =>
           foldl (fun edges dep =>
                    let base := parse_dep_name dep in
                    if decide (base ∈ workspace_names)
                    then edges ++ [(name, base)]
                    else edges)
                 edges (dependencies m))
        [] members.

(** [a <= b] on Python strings: lexicographic on the code points. *)
Fixpoint str_le (a b : str) : bool :=
  match a, b with
  | [], _ => true
  | _ :: _, [] => false
  | x :: a', y :: b' =>
      if (x <? y)%N then true
      else if (x =? y)%N then str_le a' b' else false
  end.

Definition str_order : relation str := fun a b => str_le a b = true.

#[global] Instance str_order_dec (a b : str) : Decision (str_order a b) :=
  decide (str_le a b = true).

(** [sorted(l)] for a list of strings.  Python sorts with another
    algorithm; the order is total and antisymmetric, so the sorted
    arrangement of a list is unique ([sorted_unique]) and the algorithm
    cannot be told apart. *)
Definition sorted (l : list str) : list str := merge_sort str_order l.

(** [d[k]] on the [members] dict; [None] stands for [KeyError]. *)
Fixpoint dict_get {V} (d : list (str * V)) (k : str) : option V :=
  match d with
  | [] => None
  | (k', v) :: d' => if decide (k' = k) then Some v else dict_get d' k
  end.

(** [d[k] = v]: an existing key keeps its place, a new key goes last. *)
Fixpoint dict_set {V} (d : list (str * V)) (k : str) (v : V)
  : list (str * V) :=
  match d with
  | [] => [(k, v)]
  | (k', v') :: d' =>
      if decide (k' = k) then (k, v) :: d' else (k', v') :: dict_set d' k v
  end.

(** The dict that [build_output] returns. *)
Record output := {
  out_all : bool;
  out_packages : list str;
  out_lint_paths : list str;
  out_src_paths : list str;
  out_test_paths : list str
}.

(** [build_output] of affected.py.  [src_exists] answers
    [src_dir.exists()] for the directory [pkg_dir / "src"]. *)
Definition build_output (src_exists : str -> bool) (members : members_t)
    (affected : gset str) (run_all : bool) : res output :=
  let packages := sorted (elements affected) in
  paths ← for_each
    (fun name '(lint_paths, src_paths, test_paths) =>
       match dict_get members name with
       | None => Raise KeyError
       | Some m =>
           let pkg_dir := pkg_dir_of (toml_path m) in
           let src_dir := pkg_dir ++ lit "/src" in
           Ok (lint_paths ++ [pkg_dir],
               src_paths ++ [if src_exists src_dir then src_dir else pkg_dir],
               test_paths ++ [pkg_dir])
       end)
    packages ([], [], []);
  let '(lint_paths, src_paths, test_paths) := paths in
  Ok {| out_all := run_all; out_packages := packages;
        out_lint_paths := lint_paths; out_src_paths := src_paths;
        out_test_paths := test_paths |}.

(** The directory [build_output] lists for a package. *)
Definition listed_dir (members : members_t) (name : str) : str :=
  default [] ((fun m => pkg_dir_of (toml_path m)) <$> dict_get members name).

(** The source path [build_output] lists for a package. *)
Definition listed_src (src_exists : str -> bool)
    (members : members_t) (name : str) : str :=
  if src_exists (listed_dir members name ++ lit "/src")
  then listed_dir members name ++ lit "/src"
  else listed_dir members name.

(** affected.py from the changed files to the dict it prints: [main]
    followed by [build_output]. *)
Definition affected_output (src_exists : str -> bool) (force_all : bool)
    (members : members_t) (changed_files : list str) : res output :=
  match main force_all members changed_files with
  | None => OutOfFuel
  | Some (affected, run_all) =>
      build_output src_exists members affected run_all
  end.

(** What the scripts read from a manifest besides the dependencies:
    [project.name] ([None] when absent), [project.requires-python] and
    [build-system.build-backend] with the default [""] of their [.get],
    whether [tool.ruff] and [tool.pytest] are present, whether
    [project.optional-dependencies] is present and not empty, and whether a
    [.python-version] file lies beside the manifest. *)
Record pyproject := {
  project_name : option str;
  project_dependencies : list str;
  requires_python : str;
  build_backend : str;
  tool_ruff : bool;
  tool_pytest : bool;
  optional_dependencies : bool;
  python_version_file : bool
}.

(** [discover_members], on the manifests that
    [sorted(ROOT.rglob("*/pyproject.toml"))] yields, in that order, each
    with what [load_toml] reads from it.  The test [toml_path.parent ==
    ROOT] never holds for these paths. *)
Definition discover_members (found : list (rel_toml * pyproject))
  : members_t :=
  foldl (fun members '(toml_path, data) =>
           match project_name data with
           | Some name =>
               if truthy name
               then dict_set members name
                      {| toml_path := toml_path;
                         dependencies := project_dependencies data |}
               else members
           | None => members
           end)
        [] found.

(** The entries that the manifests declaring [name] would register, in
    the order of discovery. *)
Definition declared_as (name : str) (found : list (rel_toml * pyproject))
  : list member :=
  omap (fun '(toml_path, data) =>
          if decide (project_name data = Some name)
          then Some {| toml_path := toml_path;
                       dependencies := project_dependencies data |}
          else None)
       found.

(** The remaining checks of check_deps.py.  [load_toml] gives what is
    read from the manifest at a path; the dependency list is the one the
    member carries. *)
Definition REQUIRED_BUILD_BACKEND : str := lit "uv_build".

(** [str(path.relative_to(ROOT))] for a manifest path. *)
Definition rel_str (p : rel_toml) : str := join (lit "/") (parts p).

(** [path.parent.name] *)
Definition parent_name (p : rel_toml) : str :=
  List.last (sub_dirs p) (top_dir p).

Definition external_dep_message (name dep : str) (p : rel_toml) : str :=
  name ++ lit ": external dependency '" ++ dep
       ++ lit "' must be in root pyproject.toml, not " ++ rel_str p.

(** [check_no_external_deps] *)
Definition check_no_external_deps (members : members_t)
    (workspace_names : gset str) : list str :=
  foldl (fun errors '(name, m) =>
           foldl (fun errors dep =>
                    let base := parse_dep_name dep in
                    if decide (base ∉ workspace_names)
                    then errors ++ [external_dep_message name dep (toml_path m)]
                    else errors)
                 errors (dependencies m))
        [] members.

Definition python_version_message (name : str) (p : rel_toml) : str :=
  name ++ lit ": remove "
       ++ join (lit "/") (top_dir p :: sub_dirs p ++ [lit ".python-version"])
       ++ DASH ++ lit "use the root .python-version only".

(** [check_no_member_python_version] *)
Definition check_no_member_python_version
    (load_toml : rel_toml -> pyproject) (members : members_t) : list str :=
  foldl (fun errors '(name, m) =>
           if python_version_file (load_toml (toml_path m))
           then errors ++ [python_version_message name (toml_path m)]
           else errors)
        [] members.

Definition requires_python_message (name member_req root_requires : str)
  : str :=
  name ++ lit ": requires-python '" ++ member_req
       ++ lit "' doesn't match root '" ++ root_requires ++ lit "'".

(** [check_requires_python] *)
Definition check_requires_python (load_toml : rel_toml -> pyproject)
    (members : members_t) (root_requires : str) : list str :=
  foldl (fun errors '(name, m) =>
           let member_req := requires_python (load_toml (toml_path m)) in
           if decide (truthy member_req = true ∧ member_req ≠ root_requires)
           then errors ++ [requires_python_message name member_req
                             root_requires]
           else errors)
        [] members.

Definition build_backend_message (name backend : str) : str :=
  name ++ lit ": build-backend is '" ++ backend ++ lit "', expected '"
       ++ REQUIRED_BUILD_BACKEND ++ lit "'".

(** [check_build_backend] *)
Definition check_build_backend (load_toml : rel_toml -> pyproject)
    (members : members_t) : list str :=
  foldl (fun errors '(name, m) =>
           let backend := build_backend (load_toml (toml_path m)) in
           if decide (backend ≠ REQUIRED_BUILD_BACKEND)
           then errors ++ [build_backend_message name backend]
           else errors)
        [] members.

(** [check_no_root_sources]; [root_sources] tells whether the root manifest
    has a non-empty [tool.uv.sources]. *)
Definition check_no_root_sources (root_sources : bool) : list str :=
  if root_sources
  then [lit "root pyproject.toml should not have [tool.uv.sources]" ++ DASH
        ++ lit "workspace source resolution belongs in members"]
  else [].

Definition ruff_message (name : str) : str :=
  name ++ lit ": remove [tool.ruff]" ++ DASH
       ++ lit "ruff config must be in root pyproject.toml only".

Definition pytest_message (name : str) : str :=
  name ++ lit ": remove [tool.pytest]" ++ DASH
       ++ lit "pytest config must be in root pyproject.toml only".

(** [check_no_member_tool_overrides] *)
Definition check_no_member_tool_overrides
    (load_toml : rel_toml -> pyproject) (members : members_t) : list str :=
  foldl (fun errors '(name, m) =>
           let data := load_toml (toml_path m) in
           let errors :=
             if tool_ruff data then errors ++ [ruff_message name]
             else errors in
           if tool_pytest data then errors ++ [pytest_message name]
           else errors)
        [] members.

Definition optional_deps_message (name : str) : str :=
  name ++ lit ": remove [project.optional-dependencies]" ++ DASH
       ++ lit "extras must be centralized in root pyproject.toml".

(** [check_no_member_optional_deps] *)
Definition check_no_member_optional_deps
    (load_toml : rel_toml -> pyproject) (members : members_t) : list str :=
  foldl (fun errors '(name, m) =>
           if optional_dependencies (load_toml (toml_path m))
           then errors ++ [optional_deps_message name]
           else errors)
        [] members.

Definition naming_message (name expected_dir_name : str) : str :=
  name ++ lit ": package name doesn't match directory name '"
       ++ expected_dir_name ++ lit "'".

(** [check_naming_convention] *)
Definition check_naming_convention (members : members_t) : list str :=
  foldl (fun errors '(name, m) =>
           let expected_dir_name := parent_name (toml_path m) in
           if decide (name ≠ expected_dir_name)
           then errors ++ [naming_message name expected_dir_name]
           else errors)
        [] members.

Module CheckDeps.

(** [main] of check_deps.py after [get_root_config] and
    [discover_members]: the list [all_errors], in the order of the checks.
    When the checks return, the script exits with status 1 exactly when the
    list is not empty; an exception raised by a check is not caught.
    [frames] is the depth of recursion left for [check_no_cycles]. *)
Definition main (frames : nat) (load_toml : rel_toml -> pyproject)
    (root_requires : str) (root_sources : bool) (members : members_t)
  : res (list str) :=
  let workspace_names := workspace_names_of members in
  circular ← check_no_cycles frames members workspace_names;
  Ok (check_no_external_deps members workspace_names
      ++ check_no_member_python_version load_toml members
      ++ check_requires_python load_toml members root_requires
      ++ circular
      ++ check_build_backend load_toml members
      ++ check_dependency_direction members workspace_names
      ++ check_no_root_sources root_sources
      ++ check_no_member_tool_overrides load_toml members
      ++ check_no_member_optional_deps load_toml members
      ++ check_naming_convention members).

Definition exit_status (all_errors : list str) : Z :=
  match all_errors with [] => 0 | _ => 1 end.

End CheckDeps.

(** Every dependency entry of the workspace with the member that declares
    it, in the order of the two loops the scripts run over them. *)
Definition declared (members : members_t) : list (str * member * str) :=
  flat_map (fun '(name, m) => (fun dep => (name, m, dep)) <$> dependencies m)
           members.

(** detect_changes.py shares [parse_dep_name], [build_reverse_deps],
    [file_to_package] and [expand_dependents] with affected.py; its [main]
    has its own test for a change of the root configuration. *)
Module DetectChanges.

(** The test inside [root_changed = any(...)]. *)
Definition is_root_change (f : str) : bool :=
  bool_decide (f ∈ [lit "pyproject.toml"; lit ".python-version";
                    lit "uv.lock"])
  || startswith f (lit "scripts/").

(** [main] up to the set [affected], before the output is built. *)
Definition main (members : members_t) (changed_files : list str)
  : option (gset str) :=
  let root_changed := existsb is_root_change changed_files in
  if root_changed then Some (workspace_names_of members)
  else
    let directly_changed := directly_changed_of changed_files members in
    let reverse_deps := build_reverse_deps members in
    expand_dependents directly_changed reverse_deps.

End DetectChanges.

(** The dict that detect_changes.py prints. *)
Record detected := {
  det_changed : list str;
  det_test_paths : list str
}.

(** detect_changes.py from the changed files to the dict it prints:
    [DetectChanges.main] followed by the loop that builds [test_paths]. *)
Definition detect_changes_output (members : members_t)
    (changed_files : list str) : res detected :=
  match DetectChanges.main members changed_files with
  | None => OutOfFuel
  | Some affected =>
      test_paths ← for_each
        (fun name test_paths =>
           match dict_get members name with
           | None => Raise KeyError
           | Some m => Ok (test_paths ++ [pkg_dir_of (toml_path m)])
           end)
        (sorted (elements affected)) [];
      Ok {| det_changed := sorted (elements affected);
            det_test_paths := test_paths |}
  end.

(** ** The specification's wording, for comparison with the code *)

(** A changed file matches an infrastructure pattern by exact match or by
    prefix match against the pattern set. *)
Definition matches_infra_pattern (filepath : str) : Prop :=
  ∃ pattern, pattern ∈ INFRA_PATTERNS ∧
             (filepath = pattern ∨ startswith filepath pattern = true).

(** A package directory matches a path: the path equals the directory or
    starts with the directory followed by a path separator. *)
Definition dir_matches (filepath pkg_dir : str) : Prop :=
  filepath = pkg_dir ∨ ∃ rest, filepath = pkg_dir ++ lit "/" ++ rest.

(** [name] is a member whose directory matches and is the longest among
    the matching directories. *)
Definition longest_match (filepath : str) (members : members_t)
    (name : str) : Prop :=
  ∃ m, (name, m) ∈ members ∧
       dir_matches filepath (pkg_dir_of (toml_path m)) ∧
       ∀ name' m', (name', m') ∈ members ->
                   dir_matches filepath (pkg_dir_of (toml_path m')) ->
                   length (pkg_dir_of (toml_path m'))
                   ≤ length (pkg_dir_of (toml_path m)).

(** A graph, given by its edge relation, has no cycle. *)
Definition acyclic (edge : relation str) : Prop :=
  ∀ a, ¬ tc edge a a.

(** What a call of [dfs] leaves in place: it only marks more nodes as
    visited; [in_stack] and [path] are as before the call. *)
Definition dfs_frame (st st' : dfs_state) : Prop :=
  visited st ⊆ visited st' ∧ in_stack st' = in_stack st ∧
  path st' = path st.

(** Consecutive elements of the list are joined by edges. *)
Fixpoint chain (edge : relation str) (l : list str) : Prop :=
  match l with
  | x :: (y :: _) as rest => edge x y ∧ chain edge rest
  | _ => True
  end.

(** A reported chain that is a cycle of the graph: it returns to the
    package it starts from and follows an edge at every step. *)
Definition genuine_cycle (edge : relation str) (message : str) : Prop :=
  ∃ x between,
    message = cycle_message (x :: between ++ [x]) ∧
    chain edge (x :: between ++ [x]).

(** The calls of [dfs] a loop over [l] makes one after the other, each
    related to the states before and after it by [P]. *)
Inductive steps (P : str -> dfs_state -> dfs_state -> Prop)
  : list str -> dfs_state -> dfs_state -> Prop :=
| steps_nil st : steps P [] st st
| steps_cons n l st st' st'' :
    P n st st' -> steps P l st' st'' -> steps P (n :: l) st st''.

(** The nodes whose call of [dfs] has returned, latest first, form a
    reverse topological order: they are the visited nodes that are not on
    the stack, none occurs twice, and every edge from one of them leads to
    a node that finished before it. *)
Fixpoint finished_before (edge : relation str) (order : list str) : Prop :=
  match order with
  | [] => True
  | x :: earlier =>
      (∀ y, edge x y -> y ∈ earlier) ∧ finished_before edge earlier
  end.

Definition finished (edge : relation str) (st : dfs_state)
    (order : list str) : Prop :=
  (∀ x, x ∈ order ↔ x ∈ visited st ∧ x ∉ in_stack st) ∧
  NoDup order ∧ finished_before edge order.

(** The position of a node in the order, counted from its end. *)
Fixpoint rank_of (order : list str) (x : str) : nat :=
  match order with
  | [] => 0
  | y :: earlier =>
      if decide (y = x) then S (length earlier) else rank_of earlier x
  end.

(** What a call [dfs(node, path)] does to the state: it keeps [in_stack]
    and [path], it appends its reports to [cycles]; when the path followed
    by [node] is a chain of edges the reports are cycles of the graph; and
    when it reports nothing, [node] and whatever else it explored have
    finished. *)
Definition dfs_effect (edge : relation str) (node : str)
    (st st' : dfs_state) : Prop :=
  dfs_frame st st' ∧
  ∃ extra,
    cycles st' = cycles st ++ extra ∧
    (chain edge (path st ++ [node]) -> Forall (genuine_cycle edge) extra) ∧
    (extra = [] ->
     ∀ order, finished edge st order ->
              ∃ new, finished edge st' (new ++ order) ∧ node ∈ new ++ order).

(** What the linter requires of a workspace, check by check. *)
Record well_formed (load_toml : rel_toml -> pyproject) (root_requires : str)
    (root_sources : bool) (members : members_t) : Prop := {
  wf_no_external : ∀ name m dep,
    (name, m) ∈ members -> dep ∈ dependencies m ->
    parse_dep_name dep ∈ workspace_names_of members;
  wf_no_python_version : ∀ name m,
    (name, m) ∈ members ->
    python_version_file (load_toml (toml_path m)) = false;
  wf_requires_python : ∀ name m,
    (name, m) ∈ members ->
    requires_python (load_toml (toml_path m)) = [] ∨
    requires_python (load_toml (toml_path m)) = root_requires;
  wf_acyclic :
    acyclic (declares_dependency members (workspace_names_of members));
  wf_build_backend : ∀ name m,
    (name, m) ∈ members ->
    build_backend (load_toml (toml_path m)) = REQUIRED_BUILD_BACKEND;
  wf_direction : ∀ name m dep,
    (name, m) ∈ members -> dep ∈ dependencies m ->
    parse_dep_name dep ∈ workspace_names_of members ->
    parse_dep_name dep ∈ app_names_of members ->
    classify_member (toml_path m) = None;
  wf_no_root_sources : root_sources = false;
  wf_no_tool_overrides : ∀ name m,
    (name, m) ∈ members ->
    tool_ruff (load_toml (toml_path m)) = false ∧
    tool_pytest (load_toml (toml_path m)) = false;
  wf_no_optional_deps : ∀ name m,
    (name, m) ∈ members ->
    optional_dependencies (load_toml (toml_path m)) = false;
  wf_naming : ∀ name m,
    (name, m) ∈ members -> name = parent_name (toml_path m)
}.

(** ** Example workspaces *)

Definition mk_member (top : string) (subs deps : list string) : member :=
  {| toml_path := {| top_dir := lit top; sub_dirs := lit <$> subs |};
     dependencies := lit <$> deps |}.

(** [A] depends on [B], [B] depends on [C]. *)
Definition chain_workspace : members_t :=
  [ (lit "A", mk_member "libs" ["A"%string] ["B"%string]);
    (lit "B", mk_member "libs" ["B"%string] ["C>=1.0"%string]);
    (lit "C", mk_member "libs" ["C"%string] []) ].


(** [A] depends on [B], [B] depends on [C], [C] depends on [A]; the
    manifest paths are arbitrary. *)
Definition cycle_workspace (pa pb pc : rel_toml) : members_t :=
  [ (lit "A", {| toml_path := pa; dependencies := [lit "B"] |});
    (lit "B", {| toml_path := pb; dependencies := [lit "C"] |});
    (lit "C", {| toml_path := pc; dependencies := [lit "A"] |}) ].

(** A chain of [n] libraries, each depending on the next and the last on
    nothing.  The names are one ideograph each, from U+4E00 on. *)
Definition deep_name (i : nat) : str := [(19968 + N.of_nat i)%N].

Definition deep_member (n i : nat) : str * member :=
  (deep_name i,
   {| toml_path := {| top_dir := lit "libs"; sub_dirs := [deep_name i] |};
      dependencies := if decide (S i < n) then [deep_name (S i)] else [] |}).

Definition deep_chain (n : nat) : members_t := deep_member n <$> seq 0 n.

(** A package below another package's directory, in the order in which
    [discover_members] finds them ([libs/a/pyproject.toml] sorts before
    [libs/a/sub/pyproject.toml]). *)
Definition nested_workspace : members_t :=
  [ (lit "a", mk_member "libs" ["a"%string] []);
    (lit "sub", mk_member "libs" ["a"%string; "sub"%string] []) ].

(** Two apps and a library; [web] depends on the app [api]. *)
Definition apps_workspace : members_t :=
  [ (lit "api", mk_member "apps" ["api"%string] ["shared"%string]);
    (lit "web", mk_member "apps" ["web"%string]
                  ["shared"%string; "api>=1.0"%string]);
    (lit "shared", mk_member "libs" ["shared"%string] []) ].

(** * Properties *)

(** ** Strings *)

Section strings.
Implicit Types (s p t : list N) (c sep : N).

Lemma split_nonempty sep s : split sep s ≠ [].
Proof.
  destruct s as [|c s]; simpl; [done|].
  destruct (c =? sep)%N; [done|]. by destruct (split sep s).
Qed.

Lemma item0_split sep s :
  item0 (split sep s) = before (fun c => (c =? sep)%N) s.
Proof.
  induction s as [|c s IH]; simpl; [done|].
  destruct (c =? sep)%N; [done|].
  revert IH. destruct (split sep s) as [|piece pieces]; simpl.
  - by intros <-.
  - by intros ->.
Qed.

Lemma before_before (P Q : N -> bool) s :
  before Q (before P s) = before (fun c => P c || Q c) s.
Proof.
  induction s as [|c s IH]; simpl; [done|].
  destruct (P c); simpl; [done|].
  destruct (Q c); [done|]. by rewrite IH.
Qed.

Lemma before_ext (P Q : N -> bool) s :
  (∀ c, P c = Q c) -> before P s = before Q s.
Proof.
  intros HPQ. induction s as [|c s IH]; simpl; [done|].
  rewrite HPQ, IH. done.
Qed.

Lemma before_prefix (P : N -> bool) s :
  ∃ rest, s = before P s ++ rest ∧
          (rest = [] ∨ ∃ d rest', rest = d :: rest' ∧ P d = true).
Proof.
  induction s as [|c s (rest & Hs & Hrest)]; simpl.
  - exists []. auto.
  - destruct (P c) eqn:Hc.
    + exists (c :: s). split; [done|]. right. eauto.
    + exists rest. split; [|done]. simpl. by rewrite <- Hs.
Qed.

Lemma before_Forall (P : N -> bool) s :
  Forall (fun c => P c = false) (before P s).
Proof.
  induction s as [|c s IH]; simpl; [constructor|].
  destruct (P c) eqn:Hc; by constructor.
Qed.

Lemma before_id (P : N -> bool) s :
  Forall (fun c => P c = false) s -> before P s = s.
Proof.
  induction 1 as [|c s Hc _ IH]; simpl; [done|]. by rewrite Hc, IH.
Qed.

Lemma is_delimiter_spec c :
  is_delimiter c =
  ((c =? chr "[") || (c =? chr ">") || (c =? chr "<")
   || (c =? chr "=") || (c =? chr "!") || (c =? chr ";"))%N.
Proof.
  unfold is_delimiter, DELIMITERS.
  repeat match goal with
         | |- context [(c =? ?d)%N] => destruct (N.eqb_spec c d) as [->|?]
         end; try reflexivity.
  apply bool_decide_eq_false. rewrite !elem_of_cons, elem_of_nil. tauto.
Qed.

Lemma parse_dep_name_before s :
  parse_dep_name s = strip (before is_delimiter s).
Proof.
  unfold parse_dep_name. rewrite !item0_split, !before_before.
  f_equal. apply before_ext. intros c. cbv beta.
  by rewrite is_delimiter_spec, !orb_assoc.
Qed.

Lemma before_first_delimiter s :
  before is_delimiter s =
  match first_delimiter s with Some i => take i s | None => s end.
Proof.
  induction s as [|c s IH]; simpl; [done|].
  destruct (is_delimiter c); simpl; [done|].
  rewrite IH. by destruct (first_delimiter s).
Qed.

Lemma lstrip_spec s :
  ∃ ws, s = ws ++ lstrip s ∧ Forall (fun c => isspace c = true) ws ∧
        (∀ c t, lstrip s = c :: t -> isspace c = false).
Proof.
  induction s as [|c s (ws & Hs & Hws & Hhd)]; simpl.
  - exists []. by repeat split.
  - destruct (isspace c) eqn:Hc.
    + exists (c :: ws). repeat split; [by simpl; rewrite <- Hs|by constructor|done].
    + exists []. repeat split; [constructor|]. by intros ? ? [= <- _].
Qed.

Lemma rstrip_spec s :
  ∃ ws, s = rstrip s ++ ws ∧ Forall (fun c => isspace c = true) ws ∧
        (∀ c t, rstrip s = t ++ [c] -> isspace c = false).
Proof.
  induction s as [|c s (ws & Hs & Hws & Hlast)]; simpl.
  - exists []. repeat split; [constructor|]. by intros ? [|??].
  - destruct (rstrip s) as [|r rs] eqn:Hr.
    + destruct (isspace c) eqn:Hc.
      * exists (c :: ws). simpl in Hs. subst s.
        repeat split; [by constructor|]. by intros ? [|??].
      * exists ws. simpl in Hs. subst s. repeat split; [done|].
        intros c' [|? t]; simpl; [by intros [= <-]|].
        intros [= _ Ht]. by destruct t.
    + exists ws. repeat split; [simpl; f_equal; exact Hs|done|].
      intros c' [|? t]; simpl; [done|].
      intros [= _ Ht]. by apply (Hlast c' t).
Qed.

Lemma rstrip_head c s :
  isspace c = false -> ∃ t, rstrip (c :: s) = c :: t.
Proof. intros Hc. simpl. rewrite Hc. destruct (rstrip s); eauto. Qed.

Lemma rstrip_idemp s : rstrip (rstrip s) = rstrip s.
Proof.
  induction s as [|c s IH]; simpl; [done|].
  destruct (rstrip s) as [|r rs] eqn:Hr.
  - destruct (isspace c) eqn:Hc; simpl; [done|]. by rewrite Hc.
  - change (rstrip (c :: r :: rs) = c :: r :: rs).
    simpl. simpl in IH. by rewrite IH.
Qed.

Lemma strip_idemp s : strip (strip s) = strip s.
Proof.
  unfold strip.
  destruct (lstrip_spec s) as (ws & _ & _ & Hhd).
  destruct (lstrip s) as [|c t] eqn:Hl; [done|].
  destruct (rstrip_head c t (Hhd c t eq_refl)) as [t' Ht'].
  rewrite Ht'. simpl lstrip. rewrite (Hhd c t eq_refl).
  rewrite <- Ht'. apply rstrip_idemp.
Qed.

Lemma lstrip_Forall (P : N -> Prop) s : Forall P s -> Forall P (lstrip s).
Proof.
  induction 1 as [|c s Hc Hs IH]; simpl; [constructor|].
  destruct (isspace c); [done|by constructor].
Qed.

Lemma rstrip_Forall (P : N -> Prop) s : Forall P s -> Forall P (rstrip s).
Proof.
  induction 1 as [|c s Hc Hs IH]; simpl; [constructor|].
  destruct (rstrip s).
  - destruct (isspace c); repeat constructor; done.
  - by constructor.
Qed.

Lemma strip_Forall (P : N -> Prop) s : Forall P s -> Forall P (strip s).
Proof. intros. by apply rstrip_Forall, lstrip_Forall. Qed.

End strings.

(** ** The normalizer *)

Lemma is_delimiter_false c : is_delimiter c = false ↔ c ∉ DELIMITERS.
Proof. unfold is_delimiter. apply bool_decide_eq_false. Qed.

Lemma is_delimiter_true c : is_delimiter c = true ↔ c ∈ DELIMITERS.
Proof. unfold is_delimiter. apply bool_decide_eq_true. Qed.

Lemma strip_spec (p : list N) :
  ∃ ws1 ws2,
    p = ws1 ++ strip p ++ ws2 ∧
    Forall (fun c => isspace c = true) ws1 ∧
    Forall (fun c => isspace c = true) ws2 ∧
    (∀ c t, strip p = c :: t -> isspace c = false) ∧
    (∀ c t, strip p = t ++ [c] -> isspace c = false).
Proof.
  destruct (lstrip_spec p) as (ws1 & Hp & Hws1 & Hhd).
  destruct (rstrip_spec (lstrip p)) as (ws2 & Hl & Hws2 & Hlast).
  exists ws1, ws2. unfold strip. repeat split; try done.
  - by rewrite <- Hl.
  - intros c t Hct. destruct (lstrip p) as [|c0 t0] eqn:Hl0; [done|].
    destruct (rstrip_head c0 t0 (Hhd c0 t0 eq_refl)) as [t' Ht'].
    rewrite Ht' in Hct. injection Hct as <- _. by apply (Hhd c0 t0).
Qed.

Lemma parse_dep_name_no_delimiter (s : list N) :
  Forall (fun c => c ∉ DELIMITERS) (parse_dep_name s).
Proof.
  rewrite parse_dep_name_before. apply strip_Forall.
  eapply Forall_impl; [apply before_Forall|].
  intros c. apply is_delimiter_false.
Qed.

(** C6: [parse_dep_name] returns the prefix of its argument before the
    earliest occurrence of any of the delimiters [[ > < = ! ;] (the whole
    string when none occurs), with surrounding white space trimmed.  The
    prefix [p] and the trimmed white space [ws1], [ws2] are exhibited, and
    the result agrees with the specification's wording [normalize_spec]. *)
Theorem parse_dep_name_trimmed_prefix (s : list N) :
  parse_dep_name s = normalize_spec s ∧
  ∃ p rest ws1 ws2,
    s = p ++ rest ∧
    Forall (fun c => c ∉ DELIMITERS) p ∧
    (rest = [] ∨ ∃ d rest', rest = d :: rest' ∧ d ∈ DELIMITERS) ∧
    p = ws1 ++ parse_dep_name s ++ ws2 ∧
    Forall (fun c => isspace c = true) ws1 ∧
    Forall (fun c => isspace c = true) ws2 ∧
    (∀ c t, parse_dep_name s = c :: t -> isspace c = false) ∧
    (∀ c t, parse_dep_name s = t ++ [c] -> isspace c = false).
Proof.
  split.
  - unfold normalize_spec.
    by rewrite parse_dep_name_before, before_first_delimiter.
  - rewrite parse_dep_name_before.
    destruct (before_prefix is_delimiter s) as (rest & Hs & Hrest).
    destruct (strip_spec (before is_delimiter s))
      as (ws1 & ws2 & Hp & Hws1 & Hws2 & Hhd & Hlast).
    exists (before is_delimiter s), rest, ws1, ws2.
    repeat split; try done.
    + eapply Forall_impl; [apply before_Forall|].
      intros c. apply is_delimiter_false.
    + destruct Hrest as [->|(d & rest' & -> & Hd)]; [by left|right].
      exists d, rest'. split; [done|]. by apply is_delimiter_true.
Qed.

(** C8: the string returned by [parse_dep_name] contains none of the
    delimiter characters, and [parse_dep_name] is idempotent. *)
Theorem parse_dep_name_delimiter_free_idempotent (s : list N) :
  Forall (fun c => c ∉ DELIMITERS) (parse_dep_name s) ∧
  parse_dep_name (parse_dep_name s) = parse_dep_name s.
Proof.
  split; [apply parse_dep_name_no_delimiter|].
  rewrite (parse_dep_name_before (parse_dep_name s)).
  rewrite before_id.
  - rewrite parse_dep_name_before. apply strip_idemp.
  - eapply Forall_impl; [apply parse_dep_name_no_delimiter|].
    intros c. apply is_delimiter_false.
Qed.

(** ** Lists used as stacks, dicts of lists *)

Lemma pop_app {A} (l : list A) (x : A) : pop (l ++ [x]) = Some (l, x).
Proof. induction l as [|y l IH]; simpl; [done|]. by rewrite IH. Qed.

Lemma pop_Some {A} (l r : list A) (y : A) :
  pop l = Some (r, y) -> l = r ++ [y].
Proof.
  revert r. induction l as [|x l IH]; intros r; simpl; [done|].
  destruct (pop l) as [[r' y']|] eqn:Hpop.
  - intros [= <- <-]. simpl. f_equal. by apply IH.
  - intros [= <- <-]. destruct l as [|x' l]; [done|].
    simpl in Hpop. by destruct (pop l) as [[??]|].
Qed.

Lemma pop_None {A} (l : list A) : pop l = None -> l = [].
Proof.
  destruct l as [|x l]; simpl; [done|]. by destruct (pop l) as [[??]|].
Qed.

Lemma get_list_append_at (d : gmap (list N) (list (list N))) k x p :
  get_list (append_at d k x) p =
  if decide (k = p) then get_list d k ++ [x] else get_list d p.
Proof.
  unfold append_at, get_list at 1. rewrite lookup_insert.
  by case_decide.
Qed.

Lemma elem_of_range_names (d : gmap (list N) (list (list N))) p q :
  q ∈ get_list d p -> q ∈ range_names d.
Proof.
  unfold get_list, range_names. intros Hq.
  destruct (d !! p) as [l|] eqn:Hp; simpl in Hq; [|by apply elem_of_nil in Hq].
  apply elem_of_union_list. exists (list_to_set l). split.
  - apply list_elem_of_fmap. exists (p, l). split; [done|].
    by apply elem_of_map_to_list.
  - by apply elem_of_list_to_set.
Qed.

(** The dict built by the two nested loops shared by [build_reverse_deps]
    and [build_graph]: one entry [key name base -> val name base] for every
    declared dependency that normalizes to a workspace name. *)
Section edges.
Context (ws : gset (list N)) (key val : list N -> list N -> list N).

Let inner (name : list N) :=
  fun (acc : gmap (list N) (list (list N))) (dep : list N) =>
    let base := parse_dep_name dep in
    if decide (base ∈ ws) then append_at acc (key name base) (val name base)
    else acc.

Let outer :=
  fun (acc : gmap (list N) (list (list N))) '((name, m) : list N * member) =>
    foldl (inner name) acc (dependencies m).

Lemma edges_inner name deps acc k v :
  v ∈ get_list (foldl (inner name) acc deps) k ↔
  v ∈ get_list acc k ∨
  ∃ dep, dep ∈ deps ∧ parse_dep_name dep ∈ ws ∧
         k = key name (parse_dep_name dep) ∧ v = val name (parse_dep_name dep).
Proof.
  revert acc. induction deps as [|d deps IH]; intros acc; simpl.
  - split; [auto|]. intros [?|(? & []%elem_of_nil & _)]. done.
  - rewrite IH. unfold inner. cbv zeta. split.
    + intros [Hv|(dep & Hdep & ?)].
      * case_decide as Hws.
        -- rewrite get_list_append_at in Hv. case_decide as Hk.
           ++ apply elem_of_app in Hv as [Hv|Hv%list_elem_of_singleton].
              ** left. by rewrite <- Hk.
              ** right. exists d. split; [left|]. done.
           ++ by left.
        -- by left.
      * right. exists dep. split; [by right|done].
    + intros [Hv|(dep & Hdep & Hws & -> & ->)].
      * left. case_decide; [|done]. rewrite get_list_append_at.
        case_decide as Hk; [|done]. subst k. apply elem_of_app. by left.
      * apply elem_of_cons in Hdep as [->|Hdep].
        -- left. rewrite decide_True by done. rewrite get_list_append_at.
           rewrite decide_True by done. apply elem_of_app. right. by left.
        -- right. by exists dep.
Qed.

Lemma edges_outer members acc k v :
  v ∈ get_list (foldl outer acc members) k ↔
  v ∈ get_list acc k ∨
  ∃ name m dep, (name, m) ∈ members ∧ dep ∈ dependencies m ∧
    parse_dep_name dep ∈ ws ∧
    k = key name (parse_dep_name dep) ∧ v = val name (parse_dep_name dep).
Proof.
  revert acc. induction members as [|[name m] members IH]; intros acc; simpl.
  - split; [auto|]. intros [?|(? & ? & ? & []%elem_of_nil & _)]. done.
  - rewrite IH, edges_inner. split.
    + intros [[?|(dep & ? & ?)]|(name' & m' & dep & ? & ?)].
      * by left.
      * right. exists name, m, dep. split; [left|]; done.
      * right. exists name', m', dep. split; [by right|done].
    + intros [?|(name' & m' & dep & Hin & ?)]; [by left; left|].
      apply elem_of_cons in Hin as [[= -> ->]|Hin].
      * left. right. by exists dep.
      * right. by exists name', m', dep.
Qed.

End edges.

Lemma build_reverse_deps_spec members p q :
  q ∈ get_list (build_reverse_deps members) p ↔
  declares_dependency members (workspace_names_of members) q p.
Proof.
  unfold build_reverse_deps, declares_dependency.
  rewrite (edges_outer (workspace_names_of members)
             (fun _ base => base) (fun name _ => name) members ∅ p q).
  unfold get_list at 1. rewrite lookup_empty. simpl. split.
  - intros [[]%elem_of_nil|(name & m & dep & ? & ? & ? & -> & ->)].
    by exists m, dep.
  - intros (m & dep & ? & ? & <- & ?). right. by exists q, m, dep.
Qed.

Lemma build_graph_spec members ws a b :
  b ∈ get_list (build_graph members ws) a ↔
  declares_dependency members ws a b.
Proof.
  unfold build_graph, declares_dependency.
  rewrite (edges_outer ws (fun name _ => name) (fun _ base => base)
             members ∅ a b).
  unfold get_list at 1. rewrite lookup_empty. simpl. split.
  - intros [[]%elem_of_nil|(name & m & dep & ? & ? & ? & -> & ->)].
    by exists m, dep.
  - intros (m & dep & ? & ? & <- & ?). right. by exists a, m, dep.
Qed.

(** ** The closure of dependents *)

Section expand.
Context (rd : gmap (list N) (list (list N))).
Implicit Types (result r changed : gset (list N)) (queue new : list (list N)).

Lemma add_dependents_spec dependents result queue :
  ∃ new,
    add_dependents dependents (result, queue)
      = (list_to_set new ∪ result, queue ++ new) ∧
    NoDup new ∧
    ∀ x, x ∈ new ↔ x ∈ dependents ∧ x ∉ result.
Proof.
  revert result queue.
  induction dependents as [|d dependents IH]; intros result queue.
  - exists []. unfold add_dependents; simpl. rewrite app_nil_r.
    split; [f_equal; set_solver|]. split; [constructor|].
    intros x. rewrite !elem_of_nil. tauto.
  - unfold add_dependents; simpl. case_decide as Hd.
    + destruct (IH result queue) as (new & Heq & Hnd & Hnew).
      exists new. split; [exact Heq|]. split; [done|].
      intros x. rewrite Hnew, elem_of_cons. set_solver.
    + destruct (IH ({[d]} ∪ result) (queue ++ [d])) as (new & Heq & Hnd & Hnew).
      exists (d :: new). unfold add_dependents in Heq. rewrite Heq.
      split; [|split].
      * rewrite <- app_assoc. simpl. f_equal. set_solver.
      * constructor; [|done]. rewrite Hnew. set_solver.
      * intros x. rewrite !elem_of_cons, Hnew, elem_of_union, elem_of_singleton.
        destruct (decide (x = d)) as [->|Hne]; intuition congruence.
Qed.

Lemma size_difference_self (X : gset (list N)) : size (X ∖ X) = 0.
Proof.
  apply size_empty_iff. intros x.
  rewrite elem_of_difference, elem_of_empty. tauto.
Qed.

Lemma size_difference_fresh (A R : gset (list N)) new :
  NoDup new -> (∀ x, x ∈ new -> x ∈ A ∧ x ∉ R) ->
  size (A ∖ R) = length new + size (A ∖ (list_to_set new ∪ R)).
Proof.
  intros Hnd Hnew.
  assert (Heq : A ∖ R = list_to_set new ∪ A ∖ (list_to_set new ∪ R)).
  { apply set_eq. intros x.
    rewrite elem_of_union, !elem_of_difference, elem_of_union,
      elem_of_list_to_set.
    split.
    - intros [HA HR]. destruct (decide (x ∈ new)); [by left|right]. tauto.
    - intros [Hx|[HA HR]]; [by apply Hnew|]. tauto. }
  rewrite Heq, size_union, size_list_to_set; [done|done|].
  intros x Hx. rewrite elem_of_difference, elem_of_union. tauto.
Qed.

(** Partial correctness of the loop: the result contains what it started
    from, is closed under dependents, and is contained in every set with
    these two properties. *)
Lemma expand_loop_closure fuel result queue r :
  expand_loop fuel rd result queue = Some r ->
  pending_in_queue rd result queue ->
  (∀ p, p ∈ queue -> p ∈ result) ->
  result ⊆ r ∧
  (∀ p q, p ∈ r -> q ∈ get_list rd p -> q ∈ r) ∧
  (∀ R : gset (list N),
     result ⊆ R -> (∀ p q, p ∈ R -> q ∈ get_list rd p -> q ∈ R) -> r ⊆ R).
Proof.
  revert result queue.
  induction fuel as [|fuel IH]; intros result queue; simpl.
  - destruct (pop queue) as [[queue' pkg]|] eqn:Hpop; [done|].
    intros [= <-] Hpend _. apply pop_None in Hpop as ->.
    split; [done|]. split; [|auto].
    intros p q Hp Hq. destruct (Hpend p Hp) as [[]%elem_of_nil|Hall]. auto.
  - destruct (pop queue) as [[queue' pkg]|] eqn:Hpop.
    + apply pop_Some in Hpop as ->.
      destruct (add_dependents_spec (get_list rd pkg) result queue')
        as (new & -> & Hnd & Hnew).
      intros Hr Hpend Hqueue.
      apply IH in Hr as (Hsub & Hclosed & Hleast).
      * split; [set_solver|]. split; [done|].
        intros R HR HRclosed. apply Hleast; [|done].
        apply union_subseteq. split; [|done].
        intros x [Hx _]%elem_of_list_to_set%Hnew.
        apply (HRclosed pkg); [|done]. apply HR, Hqueue. set_solver.
      * intros p [Hp|Hp]%elem_of_union.
        -- apply elem_of_list_to_set in Hp. left. apply elem_of_app. by right.
        -- destruct (Hpend p Hp) as [[Hq|Hq%list_elem_of_singleton]%elem_of_app|Hall].
           ++ left. apply elem_of_app. by left.
           ++ subst p. right. intros q Hq.
              destruct (decide (q ∈ result)); [set_solver|].
              apply elem_of_union. left. apply elem_of_list_to_set.
              by apply Hnew.
           ++ right. intros q Hq. apply elem_of_union. right. by apply Hall.
      * intros p [Hp|Hp]%elem_of_app.
        -- apply elem_of_union. right. apply Hqueue. set_solver.
        -- apply elem_of_union. left. by apply elem_of_list_to_set.
    + intros [= <-] Hpend _. apply pop_None in Hpop as ->.
      split; [done|]. split; [|auto].
      intros p q Hp Hq. destruct (Hpend p Hp) as [[]%elem_of_nil|Hall]. auto.
Qed.

(** Total correctness and cost: the loop body runs exactly once for every
    queued package and once for every package added later, and fewer units
    of fuel than that do not suffice. *)
Lemma expand_loop_exact n result queue :
  length queue + size (range_names rd ∖ result) ≤ n ->
  ∃ r, result ⊆ r ∧ r ⊆ result ∪ range_names rd ∧
    ∀ fuel, expand_loop fuel rd result queue =
            if decide (length queue + size (r ∖ result) ≤ fuel)
            then Some r else None.
Proof.
  revert result queue. induction n as [|n IH]; intros result queue Hn.
  - destruct queue as [|x queue]; [|simpl in Hn; lia].
    exists result. split; [done|]. split; [set_solver|].
    intros fuel. rewrite size_difference_self.
    rewrite decide_True by (simpl; lia). by destruct fuel.
  - destruct (pop queue) as [[queue' pkg]|] eqn:Hpop.
    + apply pop_Some in Hpop as Hq. subst queue.
      destruct (add_dependents_spec (get_list rd pkg) result queue')
        as (new & Hadd & Hnd & Hnew).
      assert (Hfresh : ∀ x, x ∈ new -> x ∈ range_names rd ∧ x ∉ result).
      { intros x [Hx ?]%Hnew. split; [|done].
        by apply elem_of_range_names with pkg. }
      rewrite length_app in Hn. simpl in Hn.
      destruct (IH (list_to_set new ∪ result) (queue' ++ new))
        as (r & Hsub & Hsup & Hloop).
      { rewrite length_app.
        rewrite (size_difference_fresh _ _ new Hnd Hfresh) in Hn. lia. }
      exists r. split; [set_solver|]. split.
      { intros x [[Hx|Hx]%elem_of_union|Hx]%Hsup%elem_of_union;
          [|set_solver..].
        apply elem_of_union. right. apply elem_of_list_to_set in Hx.
        by apply Hfresh. }
      assert (Hsize : size (r ∖ result)
                      = length new + size (r ∖ (list_to_set new ∪ result))).
      { apply size_difference_fresh; [done|].
        intros x Hx. split; [|by apply Hfresh].
        apply Hsub, elem_of_union. left. by apply elem_of_list_to_set. }
      intros fuel. rewrite length_app. simpl length.
      destruct fuel as [|fuel]; simpl; rewrite pop_app.
      * by rewrite decide_False by lia.
      * rewrite Hadd, Hloop, length_app.
        repeat case_decide; try done; lia.
    + apply pop_None in Hpop as ->.
      exists result. split; [done|]. split; [set_solver|].
      intros fuel. rewrite size_difference_self.
    rewrite decide_True by (simpl; lia). by destruct fuel.
Qed.

(** [list(changed)] may enumerate the set in any order: the result of the
    loop is the same. *)
Lemma expand_loop_order_irrelevant changed queue1 queue2 fuel1 fuel2 r1 r2 :
  (∀ p, p ∈ queue1 ↔ p ∈ changed) ->
  (∀ p, p ∈ queue2 ↔ p ∈ changed) ->
  expand_loop fuel1 rd changed queue1 = Some r1 ->
  expand_loop fuel2 rd changed queue2 = Some r2 ->
  r1 = r2.
Proof.
  intros H1 H2 Hr1 Hr2.
  apply expand_loop_closure in Hr1 as (Hs1 & Hc1 & Hl1);
    [|intros p Hp; left; by apply H1|intros p; apply H1].
  apply expand_loop_closure in Hr2 as (Hs2 & Hc2 & Hl2);
    [|intros p Hp; left; by apply H2|intros p; apply H2].
  apply set_eq. intros x. split.
  - apply (Hl1 r2 Hs2 Hc2).
  - apply (Hl2 r1 Hs1 Hc1).
Qed.

Lemma expand_dependents_exact changed :
  ∃ r, expand_dependents changed rd = Some r ∧
       changed ⊆ r ∧ r ⊆ changed ∪ range_names rd ∧
       ∀ fuel, expand_loop fuel rd changed (elements changed) =
               if decide (size r ≤ fuel) then Some r else None.
Proof.
  destruct (expand_loop_exact
              (length (elements changed) + size (range_names rd ∖ changed))
              changed (elements changed)) as (r & Hsub & Hsup & Hloop); [done|].
  assert (Hsize : length (elements changed) + size (r ∖ changed) = size r).
  { change (length (elements changed)) with (size changed).
    rewrite <- size_union by set_solver. f_equal.
    apply set_eq. intros x. rewrite elem_of_union, elem_of_difference.
    split; [intros [?|[??]]; auto|].
    intros ?. destruct (decide (x ∈ changed)); auto. }
  rewrite Hsize in Hloop.
  exists r. split; [|done].
  unfold expand_dependents. rewrite Hloop.
  apply decide_True, subseteq_size. done.
Qed.

Lemma expand_dependents_closure changed r :
  expand_dependents changed rd = Some r ->
  changed ⊆ r ∧
  (∀ p q, p ∈ r -> q ∈ get_list rd p -> q ∈ r) ∧
  (∀ R : gset (list N),
     changed ⊆ R -> (∀ p q, p ∈ R -> q ∈ get_list rd p -> q ∈ R) -> r ⊆ R).
Proof.
  intros Hr. apply expand_loop_closure in Hr; [done|..].
  - intros p Hp. left. by apply elem_of_elements.
  - intros p. apply elem_of_elements.
Qed.

End expand.

(** C1: for every reverse-dependency map and every directly-changed set,
    [expand_dependents] returns a set that contains the directly-changed
    set and is closed under reverse edges; for the map that
    [build_reverse_deps] derives from the members, this means that whenever
    a package is in the result, every member that declares a workspace
    dependency on it is in the result too. *)
Theorem expand_dependents_superset_closed
    (members : list (list N * member)) (changed : gset (list N)) :
  (∀ rd : gmap (list N) (list (list N)),
     ∃ affected,
       expand_dependents changed rd = Some affected ∧
       changed ⊆ affected ∧
       ∀ p q, p ∈ affected -> q ∈ get_list rd p -> q ∈ affected) ∧
  ∃ affected,
    expand_dependents changed (build_reverse_deps members) = Some affected ∧
    changed ⊆ affected ∧
    ∀ p q, p ∈ affected ->
           declares_dependency members (workspace_names_of members) q p ->
           q ∈ affected.
Proof.
  assert (Hgen : ∀ rd : gmap (list N) (list (list N)),
     ∃ affected,
       expand_dependents changed rd = Some affected ∧
       changed ⊆ affected ∧
       ∀ p q, p ∈ affected -> q ∈ get_list rd p -> q ∈ affected).
  { intros rd. destruct (expand_dependents_exact rd changed) as (r & Hr & _).
    exists r. split; [done|].
    destruct (expand_dependents_closure rd changed r Hr) as (? & ? & _).
    done. }
  split; [exact Hgen|].
  destruct (Hgen (build_reverse_deps members)) as (r & Hr & Hsub & Hclosed).
  exists r. split; [done|]. split; [done|].
  intros p q Hp Hdep. apply (Hclosed p q Hp).
  by apply build_reverse_deps_spec.
Qed.

(** C10: [expand_dependents] terminates for every reverse-dependency map
    and every starting set, cyclic graphs included: the loop body runs
    exactly once for each package of the result (each passes through the
    work queue once), so [size affected] units of fuel suffice, fewer do
    not, and the fuel [expand_dependents] provides is enough. *)
Theorem expand_dependents_terminates
    (rd : gmap (list N) (list (list N))) (changed : gset (list N)) :
  ∃ affected,
    expand_dependents changed rd = Some affected ∧
    ∀ fuel, expand_loop fuel rd changed (elements changed) =
            if decide (size affected ≤ fuel) then Some affected else None.
Proof.
  destruct (expand_dependents_exact rd changed) as (r & Hr & _ & _ & Hloop).
  by exists r.
Qed.

(** ** The change-impact resolver *)

Lemma startswith_spec (s p : list N) :
  startswith s p = true ↔ ∃ rest, s = p ++ rest.
Proof.
  revert s. induction p as [|a p IH]; intros s; simpl.
  - split; [eauto|done].
  - destruct s as [|b s].
    + split; [done|]. by intros [rest ?].
    + rewrite andb_true_iff, N.eqb_eq, IH. split.
      * intros [-> [rest ->]]. by exists rest.
      * intros [rest [= -> ->]]. eauto.
Qed.

Lemma workspace_names_of_empty (members : list (list N * member)) :
  workspace_names_of members = ∅ ↔ members = [].
Proof.
  unfold workspace_names_of. split; [|by intros ->].
  destruct members as [|[name m] members]; [done|]. simpl.
  intros Hempty. exfalso. apply (not_elem_of_empty (C:=gset (list N)) name).
  rewrite <- Hempty. apply elem_of_union. left. by apply elem_of_singleton.
Qed.

Lemma directly_changed_of_spec changed_files members (x : list N) :
  x ∈ directly_changed_of changed_files members ↔
  ∃ f, f ∈ changed_files ∧ file_to_package f members = Some x ∧ x ≠ [].
Proof.
  unfold directly_changed_of.
  assert (Hgen : ∀ acc : gset (list N),
    x ∈ foldl (fun directly_changed f =>
                 match file_to_package f members with
                 | Some pkg => if truthy pkg then {[pkg]} ∪ directly_changed
                               else directly_changed
                 | None => directly_changed
                 end) acc changed_files ↔
    x ∈ acc ∨ ∃ f, f ∈ changed_files ∧
                   file_to_package f members = Some x ∧ x ≠ []).
  { induction changed_files as [|f files IH]; intros acc; simpl.
    - split; [auto|]. intros [?|(? & []%elem_of_nil & _)]. done.
    - rewrite IH. split.
      + intros [Hx|(f' & ? & ?)].
        * destruct (file_to_package f members) as [pkg|] eqn:Hf; [|by left].
          destruct pkg as [|c pkg]; simpl in Hx; [by left|].
          apply elem_of_union in Hx as [->%elem_of_singleton|?]; [|by left].
          right. exists f. split; [left|]. done.
        * right. exists f'. split; [by right|done].
      + intros [Hx|(f' & [->|Hf']%elem_of_cons & Hpkg & Hne)].
        * left. destruct (file_to_package f members) as [pkg|]; [|done].
          destruct (truthy pkg); [|done]. apply elem_of_union. by right.
        * left. rewrite Hpkg. destruct x as [|c x]; [done|]. simpl.
          apply elem_of_union. left. by apply elem_of_singleton.
        * right. by exists f'. }
  rewrite Hgen. rewrite elem_of_empty. split; [by intros [[]|?]|auto].
Qed.

Lemma main_infra force_all members changed_files :
  existsb is_infra_file changed_files = true ->
  main force_all members changed_files
  = Some (workspace_names_of members, true).
Proof. intros Hinfra. unfold main. rewrite Hinfra. by destruct force_all. Qed.

Lemma main_no_infra members changed_files :
  existsb is_infra_file changed_files = false ->
  ∃ affected,
    main false members changed_files = Some (affected, false) ∧
    expand_dependents (directly_changed_of changed_files members)
                      (build_reverse_deps members) = Some affected.
Proof.
  intros Hinfra. unfold main. rewrite Hinfra.
  destruct (expand_dependents_exact (build_reverse_deps members)
              (directly_changed_of changed_files members)) as (r & Hr & _).
  exists r. by rewrite Hr.
Qed.

(** With no infrastructure change and no force-all flag, the affected set
    of [main] contains the directly-changed packages and every member that
    declares a workspace dependency on an affected package. *)
Lemma main_no_infra_closed members changed_files :
  existsb is_infra_file changed_files = false ->
  ∃ affected,
    main false members changed_files = Some (affected, false) ∧
    directly_changed_of changed_files members ⊆ affected ∧
    ∀ p q, p ∈ affected ->
           declares_dependency members (workspace_names_of members) q p ->
           q ∈ affected.
Proof.
  intros Hinfra.
  destruct (main_no_infra members changed_files Hinfra)
    as (affected & Hmain & Hexp).
  exists affected. split; [done|].
  apply expand_dependents_closure in Hexp as (Hsub & Hclosed & _).
  split; [done|]. intros p q Hp Hdep. apply (Hclosed p q Hp).
  by apply build_reverse_deps_spec.
Qed.

Lemma is_infra_file_spec (f : list N) :
  is_infra_file f = true ↔
  f = lit "pyproject.toml" ∨
  ∃ pattern, pattern ∈ INFRA_PATTERNS ∧ pattern ≠ lit "pyproject.toml" ∧
             (f = pattern ∨ startswith f pattern = true).
Proof.
  unfold is_infra_file. case_decide as Hf; [split; auto|].
  rewrite existsb_exists. split.
  - intros (pattern & Hin & Hm). right. exists pattern.
    apply list_elem_of_In, list_elem_of_filter in Hin as [? ?].
    apply orb_true_iff in Hm as [?%bool_decide_eq_true|?]; auto.
  - intros [?|(pattern & ? & ? & Hm)]; [done|]. exists pattern. split.
    + by apply list_elem_of_In, list_elem_of_filter.
    + apply orb_true_iff.
      destruct Hm; [left; by apply bool_decide_eq_true|by right].
Qed.

Lemma existsb_is_infra_file (changed_files : list (list N)) f :
  f ∈ changed_files -> is_infra_file f = true ->
  existsb is_infra_file changed_files = true.
Proof.
  intros Hf Hinfra. apply existsb_exists. exists f.
  split; [by apply list_elem_of_In|done].
Qed.

(** C2, amended: if any changed file equals ["pyproject.toml"], or equals
    or starts with one of the other infrastructure patterns, then the
    affected set is the full set of discovered packages and [run_all] is
    true, whatever the edges of the graph; in particular a changed-file
    list holding only ["uv.lock"] gives that outcome. *)
Theorem infra_change_affects_all (force_all : bool)
    (members : list (list N * member)) (changed_files : list (list N))
    (f : list N) :
  f ∈ changed_files ->
  (f = lit "pyproject.toml" ∨
   ∃ pattern, pattern ∈ INFRA_PATTERNS ∧ pattern ≠ lit "pyproject.toml" ∧
              (f = pattern ∨ ∃ rest, f = pattern ++ rest)) ->
  main force_all members changed_files
    = Some (workspace_names_of members, true) ∧
  main force_all members [lit "uv.lock"]
    = Some (workspace_names_of members, true).
Proof.
  intros Hf Hmatch. split.
  - apply main_infra. apply existsb_is_infra_file with f; [done|].
    apply is_infra_file_spec.
    destruct Hmatch as [?|(pattern & ? & ? & Hm)]; [by left|right].
    exists pattern. do 2 (split; [done|]).
    destruct Hm as [?|?%startswith_spec]; auto.
  - by apply main_infra.
Qed.

Lemma infra_change_affects_all_witness :
  lit "scripts/affected.py" ∈ [lit "libs/C/c.py"; lit "scripts/affected.py"] ∧
  main false chain_workspace [lit "libs/C/c.py"; lit "scripts/affected.py"]
    = Some (workspace_names_of chain_workspace, true) ∧
  main false chain_workspace [lit "uv.lock"]
    = Some (workspace_names_of chain_workspace, true).
Proof.
  assert (Hin : lit "scripts/affected.py"
                ∈ [lit "libs/C/c.py"; lit "scripts/affected.py"]).
  { apply elem_of_cons. right. apply elem_of_cons. by left. }
  split; [exact Hin|].
  apply (infra_change_affects_all false chain_workspace
           [lit "libs/C/c.py"; lit "scripts/affected.py"]
           (lit "scripts/affected.py") Hin).
  right. exists (lit "scripts/"). split; [|split].
  - unfold INFRA_PATTERNS. rewrite !elem_of_cons. tauto.
  - discriminate.
  - right. by exists (lit "affected.py").
Defined.

(** C2 as stated fails: ["pyproject.toml.bak"] matches the pattern
    ["pyproject.toml"] by prefix, yet it is not an infrastructure file for
    [is_infra_file], and the run is not a run-all. *)
Lemma pyproject_prefix_is_not_infra :
  matches_infra_pattern (lit "pyproject.toml.bak") ∧
  is_infra_file (lit "pyproject.toml.bak") = false ∧
  main false chain_workspace [lit "pyproject.toml.bak"] = Some (∅, false) ∧
  main false chain_workspace [lit "pyproject.toml.bak"]
    ≠ Some (workspace_names_of chain_workspace, true).
Proof.
  split; [|split; [|split]].
  - exists (lit "pyproject.toml"). split; [by left|by right].
  - reflexivity.
  - vm_compute. reflexivity.
  - vm_compute. discriminate.
Qed.

Lemma expand_loop_nil (fuel : nat) (rd : gmap (list N) (list (list N)))
    (result : gset (list N)) :
  expand_loop fuel rd result [] = Some result.
Proof. by destruct fuel. Qed.

Lemma expand_dependents_empty (rd : gmap (list N) (list (list N))) :
  expand_dependents ∅ rd = Some ∅.
Proof.
  unfold expand_dependents. rewrite elements_empty. apply expand_loop_nil.
Qed.

Lemma expand_dependents_empty_iff (rd : gmap (list N) (list (list N)))
    (changed affected : gset (list N)) :
  expand_dependents changed rd = Some affected ->
  affected = ∅ ↔ changed = ∅.
Proof.
  intros Hr. split.
  - intros ->. apply expand_dependents_closure in Hr as (Hsub & _).
    apply set_eq. intros x. rewrite elem_of_empty. split; [|done].
    intros Hx. by apply (not_elem_of_empty (C:=gset (list N)) x), Hsub.
  - intros ->. rewrite expand_dependents_empty in Hr. by injection Hr.
Qed.

(** The round trip of the specification: with [A] depending on [B] and
    [B] on [C], a change below the directory of [C] affects all three. *)
Example chain_round_trip :
  main false chain_workspace [lit "libs/C/c.py"]
  = Some (list_to_set [lit "A"; lit "B"; lit "C"], false).
Proof. vm_compute. reflexivity. Qed.

(** C3, amended: with no force-all flag, the affected set is empty exactly
    when an infrastructure file changed and no package was discovered, or
    no infrastructure file changed and no changed file is owned by a
    package (changed files outside every package directory are dropped);
    in particular an empty changed-file list gives an empty affected set
    and [run_all = false]. *)
Theorem affected_empty_iff
    (members : list (list N * member)) (changed_files : list (list N)) :
  main false members [] = Some (∅, false) ∧
  ∃ affected run_all,
    main false members changed_files = Some (affected, run_all) ∧
    (affected = ∅ ↔
     (existsb is_infra_file changed_files = true ∧ members = []) ∨
     (existsb is_infra_file changed_files = false ∧
      ∀ f pkg, f ∈ changed_files ->
               file_to_package f members = Some pkg -> pkg = [])).
Proof.
  split.
  - unfold main. simpl. unfold directly_changed_of. simpl.
    by rewrite expand_dependents_empty.
  - destruct (existsb is_infra_file changed_files) eqn:Hinfra.
    + exists (workspace_names_of members), true.
      split; [by apply main_infra|].
      rewrite workspace_names_of_empty. split; [auto|].
      by intros [[_ ?]|[? _]].
    + destruct (main_no_infra members changed_files Hinfra)
        as (affected & Hmain & Hexp).
      exists affected, false. split; [done|].
      rewrite (expand_dependents_empty_iff _ _ _ Hexp). split.
      * intros Hempty. right. split; [done|]. intros f pkg Hf Hpkg.
        destruct pkg as [|c pkg]; [done|]. exfalso.
        apply (not_elem_of_empty (C:=gset (list N)) (c :: pkg)).
        rewrite <- Hempty. apply directly_changed_of_spec. by exists f.
      * intros [[? _]|[_ Hnone]]; [done|].
        apply set_eq. intros x. rewrite elem_of_empty. split; [|done].
        intros (f & Hf & Hpkg & Hne)%directly_changed_of_spec.
        by apply Hne, (Hnone f).
Qed.

(** C3 as stated fails: a changed file that no package owns leaves the
    affected set empty although the changed-file list is not empty. *)
Lemma unowned_change_affects_nothing :
  main false chain_workspace [lit "README.md"] = Some (∅, false) ∧
  existsb is_infra_file [lit "README.md"] = false ∧
  ¬ ((∅ : gset (list N)) = ∅ ↔
     [lit "README.md"] = [] ∧ existsb is_infra_file [lit "README.md"] = false).
Proof.
  split; [|split].
  - vm_compute. reflexivity.
  - reflexivity.
  - intros [Himp _]. by destruct (Himp eq_refl).
Qed.

(** ** The path-to-package resolver *)

Lemma dir_matches_spec (filepath pkg_dir : list N) :
  startswith filepath (pkg_dir ++ lit "/") || bool_decide (filepath = pkg_dir)
  = true ↔ dir_matches filepath pkg_dir.
Proof.
  unfold dir_matches.
  rewrite orb_true_iff, startswith_spec, bool_decide_eq_true. split.
  - intros [[rest ->]|?]; [right|by left].
    exists rest. by rewrite <- app_assoc.
  - intros [?|[rest ->]]; [by right|left].
    exists rest. by rewrite <- app_assoc.
Qed.

(** C7, amended: [file_to_package] returns the first member, in the
    iteration order of [members], whose directory matches the path (it
    equals the directory or starts with the directory followed by a path
    separator), and [None] when no directory matches; when several
    directories match, the others come later in that order, whatever their
    length. *)
Theorem file_to_package_first_match
    (filepath : list N) (members : list (list N * member)) :
  match file_to_package filepath members with
  | Some name =>
      ∃ earlier m later,
        members = earlier ++ (name, m) :: later ∧
        dir_matches filepath (pkg_dir_of (toml_path m)) ∧
        Forall (fun nm => ¬ dir_matches filepath (pkg_dir_of (toml_path nm.2)))
               earlier
  | None =>
      Forall (fun nm => ¬ dir_matches filepath (pkg_dir_of (toml_path nm.2)))
             members
  end.
Proof.
  induction members as [|[name m] members IH]; simpl; [constructor|].
  destruct (startswith filepath (pkg_dir_of (toml_path m) ++ lit "/")
            || bool_decide (filepath = pkg_dir_of (toml_path m))) eqn:Hm.
  - exists [], m, members. split; [done|]. split; [|constructor].
    by apply dir_matches_spec.
  - assert (Hno : ¬ dir_matches filepath (pkg_dir_of (toml_path m))).
    { intros Hd%dir_matches_spec. congruence. }
    destruct (file_to_package filepath members) as [name'|].
    + destruct IH as (earlier & m' & later & -> & Hmatch & Hearlier).
      exists ((name, m) :: earlier), m', later.
      split; [done|]. split; [done|]. by constructor.
    + by constructor.
Qed.

(** C7 as stated fails: for a file below [libs/a/sub], both [libs/a] and
    [libs/a/sub] match; [file_to_package] returns the owner of [libs/a],
    which is not the longest matching directory. *)
Lemma file_to_package_not_longest :
  file_to_package (lit "libs/a/sub/x.py") nested_workspace = Some (lit "a") ∧
  dir_matches (lit "libs/a/sub/x.py") (lit "libs/a") ∧
  dir_matches (lit "libs/a/sub/x.py") (lit "libs/a/sub") ∧
  ¬ longest_match (lit "libs/a/sub/x.py") nested_workspace (lit "a").
Proof.
  split; [reflexivity|]. split; [|split].
  - right. by exists (lit "sub/x.py").
  - right. by exists (lit "x.py").
  - intros (m & Hm & _ & Hlongest).
    assert (m = mk_member "libs" ["a"%string] []) as ->.
    { unfold nested_workspace in Hm.
      rewrite !elem_of_cons, elem_of_nil in Hm.
      destruct Hm as [[= <-]|[[=]|[]]]. done. }
    specialize (Hlongest (lit "sub")
                  (mk_member "libs" ["a"%string; "sub"%string] [])).
    assert (Hlen : length (lit "libs/a/sub") ≤ length (lit "libs/a")).
    { apply Hlongest.
      - unfold nested_workspace. rewrite !elem_of_cons. tauto.
      - right. by exists (lit "x.py"). }
    vm_compute in Hlen. lia.
Qed.

(** ** Classification *)

(** C9, amended: [classify] and [classify_member] agree exactly on the
    manifests whose top-level folder is [apps] or [libs]; for any other
    top-level folder [classify] answers ['lib'] while [classify_member]
    answers [None]. *)
Theorem classify_agreement (toml_path : rel_toml) :
  (classify toml_path, classify_member toml_path) =
    (if decide (top_dir toml_path = lit "apps")
     then (lit "app", Some (lit "app"))
     else if decide (top_dir toml_path = lit "libs")
          then (lit "lib", Some (lit "lib"))
          else (lit "lib", None)) ∧
  (classify_member toml_path = Some (classify toml_path) ↔
   top_dir toml_path = lit "apps" ∨ top_dir toml_path = lit "libs").
Proof.
  unfold classify, classify_member, parts, item0. simpl.
  repeat case_decide; (split; [done|]); split; auto; try done.
  by intros [?|?].
Qed.

(** C9 as stated fails: a manifest below [tools/] is a ['lib'] for
    [classify] and unclassified for [classify_member]. *)
Lemma classify_disagreement :
  classify {| top_dir := lit "tools"; sub_dirs := [lit "x"] |} = lit "lib" ∧
  classify_member {| top_dir := lit "tools"; sub_dirs := [lit "x"] |} = None ∧
  classify_member {| top_dir := lit "tools"; sub_dirs := [lit "x"] |}
    ≠ Some (classify {| top_dir := lit "tools"; sub_dirs := [lit "x"] |}).
Proof. by repeat split. Qed.

(** ** The dependency-direction check *)

Section direction.
Context (ws app : gset (list N)).

Let body (name : list N) (kind : option (list N)) :=
  fun (errors : list (list N)) (dep : list N) =>
    let base := parse_dep_name dep in
    if decide (base ∈ ws) then
      let errors :=
        if decide (kind = Some (lit "app") ∧ base ∈ app)
        then errors ++ [app_on_app_message name base]
        else errors in
      if decide (kind = Some (lit "lib") ∧ base ∈ app)
      then errors ++ [lib_on_app_message name base]
      else errors
    else errors.

Lemma direction_inner name kind deps errors :
  foldl (body name kind) errors deps =
  errors ++ (render_violation <$> flat_map (violations_of ws app name kind) deps).
Proof.
  revert errors. induction deps as [|dep deps IH]; intros errors; simpl.
  - by rewrite app_nil_r.
  - rewrite IH, fmap_app, app_assoc. f_equal.
    unfold body, violations_of. cbv zeta.
    repeat case_decide; simpl; rewrite ?app_nil_r, <- ?app_assoc; done.
Qed.

Lemma direction_outer (members : list (list N * member)) errors :
  foldl (fun errors '(name, m) =>
           foldl (body name (classify_member (toml_path m))) errors
                 (dependencies m))
        errors members =
  errors ++ (render_violation <$>
             flat_map (fun '(name, m) =>
                         flat_map (violations_of ws app name
                                     (classify_member (toml_path m)))
                                  (dependencies m))
                      members).
Proof.
  revert errors.
  induction members as [|[name m] members IH]; intros errors; simpl.
  - by rewrite app_nil_r.
  - by rewrite IH, direction_inner, fmap_app, app_assoc.
Qed.

End direction.

Lemma check_dependency_direction_render
    (members : list (list N * member)) (ws : gset (list N)) :
  check_dependency_direction members ws
  = render_violation <$> direction_violations members ws.
Proof.
  unfold check_dependency_direction, direction_violations.
  apply (direction_outer ws (app_names_of members) members []).
Qed.

Lemma app_names_of_spec (members : list (list N * member)) (x : list N) :
  x ∈ app_names_of members ↔
  ∃ m, (x, m) ∈ members ∧ classify_member (toml_path m) = Some (lit "app").
Proof.
  unfold app_names_of.
  assert (Hgen : ∀ acc : gset (list N),
    x ∈ foldl (fun app_names '(name, m) =>
                 if decide (classify_member (toml_path m) = Some (lit "app"))
                 then {[name]} ∪ app_names else app_names) acc members ↔
    x ∈ acc ∨ ∃ m, (x, m) ∈ members ∧
                   classify_member (toml_path m) = Some (lit "app")).
  { induction members as [|[name m] members IH]; intros acc; simpl.
    - split; [auto|]. intros [?|(? & []%elem_of_nil & _)]. done.
    - rewrite IH. split.
      + intros [Hx|(m' & ? & ?)].
        * case_decide as Hk; [|by left].
          apply elem_of_union in Hx as [->%elem_of_singleton|?]; [|by left].
          right. exists m. split; [left|]. done.
        * right. exists m'. split; [by right|done].
      + intros [Hx|(m' & [[= -> ->]|Hm']%elem_of_cons & Hk)].
        * left. case_decide; [|done]. apply elem_of_union. by right.
        * left. rewrite decide_True by done.
          apply elem_of_union. left. by apply elem_of_singleton.
        * right. by exists m'. }
  rewrite Hgen, elem_of_empty. split; [by intros [[]|?]|auto].
Qed.

Lemma startswith_app (p rest : list N) : startswith (p ++ rest) p = true.
Proof. apply startswith_spec. by exists rest. Qed.

Lemma contains_app (sub pre post : list N) :
  contains sub (pre ++ sub ++ post) = true.
Proof.
  induction pre as [|c pre IH].
  - pose proof (startswith_app sub post) as Hs. simpl.
    destruct (sub ++ post); simpl; by rewrite Hs.
  - simpl. rewrite IH. apply orb_true_r.
Qed.

Lemma app_on_app_message_names (name base : list N) :
  contains name (app_on_app_message name base) = true ∧
  contains base (app_on_app_message name base) = true.
Proof.
  unfold app_on_app_message. split.
  - apply (contains_app name []).
  - rewrite (app_assoc name). apply contains_app.
Qed.

(** The violations whose subject is [a] and whose object is [b]. *)
Lemma violations_about (members : list (list N * member))
    (a b : list N) (ma mb : member) :
  NoDup members.*1 ->
  (a, ma) ∈ members -> (b, mb) ∈ members ->
  classify_member (toml_path ma) = Some (lit "app") ->
  classify_member (toml_path mb) = Some (lit "app") ->
  filter (fun v => v_name v = a ∧ v_base v = b)
         (direction_violations members (workspace_names_of members))
  = (fun _ => {| v_name := a; v_kind := lit "app"; v_base := b |})
      <$> filter (fun dep => parse_dep_name dep = b) (dependencies ma).
Proof.
  intros Hnd Ha Hb Hka Hkb.
  assert (Hbws : b ∈ workspace_names_of members).
  { apply elem_of_list_to_set, list_elem_of_fmap. by exists (b, mb). }
  assert (Hbapp : b ∈ app_names_of members).
  { apply app_names_of_spec. by exists mb. }
  unfold direction_violations.
  generalize (workspace_names_of members) (app_names_of members) Hbws Hbapp.
  intros ws app Hws Happ. clear Hb Hkb Hbws Hbapp mb.
  assert (Hother : ∀ l : list (list N * member), a ∉ l.*1 ->
    filter (fun v => v_name v = a ∧ v_base v = b)
      (flat_map (fun '(name, m) =>
                   flat_map (violations_of ws app name
                               (classify_member (toml_path m)))
                            (dependencies m)) l) = []).
  { intros l Hl. induction l as [|[name m] l IH]; simpl; [done|].
    rewrite fmap_cons, not_elem_of_cons in Hl. destruct Hl as [Hne Hl].
    rewrite filter_app, (IH Hl), app_nil_r. simpl in Hne.
    induction (dependencies m) as [|dep deps IHd]; simpl; [done|].
    rewrite filter_app, IHd, app_nil_r.
    unfold violations_of. cbv zeta.
    repeat case_decide; simpl; rewrite ?filter_cons, ?filter_nil;
      repeat case_decide; simpl in *; try done; naive_solver. }
  apply list_elem_of_split in Ha as (l1 & l2 & ->).
  rewrite fmap_app, fmap_cons in Hnd. simpl in Hnd.
  apply NoDup_app in Hnd as (_ & Hl1 & [Hl2 _]%NoDup_cons).
  rewrite flat_map_app, filter_app. simpl.
  rewrite filter_app, !Hother, app_nil_r; [|done|].
  2:{ intros Hin. apply (Hl1 a Hin). by left. }
  simpl. rewrite Hka.
  induction (dependencies ma) as [|dep deps IHd]; simpl; [done|].
  rewrite filter_app, IHd. unfold violations_of at 1. cbv zeta.
  rewrite (filter_cons (fun dep => parse_dep_name dep = b)).
  destruct (decide (parse_dep_name dep = b)) as [Hdep|Hdep].
  - rewrite Hdep. rewrite !decide_True by done.
    rewrite decide_False by (intros [[=] _]). simpl.
    rewrite filter_cons, decide_True by done. by rewrite filter_nil.
  - repeat case_decide; simpl; rewrite ?filter_cons, ?filter_nil;
      repeat case_decide; simpl in *; try done; naive_solver.
Qed.

(** C5: in a workspace where an App-classified member [a] declares exactly
    one workspace-internal dependency on the App-classified member [b],
    [check_dependency_direction] produces exactly one violation about the
    two, and its message names both packages; when [a] declares no
    dependency on [b] it produces no violation about them.  The messages
    of the check are the renderings of [direction_violations], one for one.
    The member names are the keys of a dict, hence distinct. *)
Theorem app_on_app_violation (members : list (list N * member))
    (a b : list N) (ma mb : member) :
  NoDup members.*1 ->
  (a, ma) ∈ members -> (b, mb) ∈ members ->
  classify_member (toml_path ma) = Some (lit "app") ->
  classify_member (toml_path mb) = Some (lit "app") ->
  let ws := workspace_names_of members in
  let v := {| v_name := a; v_kind := lit "app"; v_base := b |} in
  let about := filter (fun v => v_name v = a ∧ v_base v = b)
                      (direction_violations members ws) in
  check_dependency_direction members ws
    = render_violation <$> direction_violations members ws ∧
  render_violation v = app_on_app_message a b ∧
  contains a (render_violation v) = true ∧
  contains b (render_violation v) = true ∧
  (length (filter (fun dep => parse_dep_name dep = b) (dependencies ma)) = 1 ->
   about = [v] ∧
   app_on_app_message a b ∈ check_dependency_direction members ws) ∧
  (filter (fun dep => parse_dep_name dep = b) (dependencies ma) = [] ->
   about = []).
Proof.
  intros Hnd Ha Hb Hka Hkb ws v about.
  assert (Habout : about = (fun _ => v) <$>
            filter (fun dep => parse_dep_name dep = b) (dependencies ma)).
  { by apply violations_about with mb. }
  assert (Hrender : render_violation v = app_on_app_message a b) by done.
  split; [apply check_dependency_direction_render|].
  split; [done|]. rewrite Hrender.
  split; [apply app_on_app_message_names|].
  split; [apply app_on_app_message_names|]. split.
  - intros Hone. rewrite Habout.
    destruct (filter _ (dependencies ma)) as [|dep [|??]] eqn:Hdeps;
      simpl in Hone; try lia.
    split; [done|].
    rewrite check_dependency_direction_render, <- Hrender.
    apply list_elem_of_fmap_2.
    assert (Hv : v ∈ about) by (rewrite Habout; simpl; by left).
    by apply list_elem_of_filter in Hv as [_ ?].
  - intros Hnone. by rewrite Habout, Hnone.
Qed.

Lemma app_on_app_violation_witness :
  check_dependency_direction apps_workspace (workspace_names_of apps_workspace)
    = [app_on_app_message (lit "web") (lit "api")] ∧
  filter (fun v => v_name v = lit "web" ∧ v_base v = lit "api")
         (direction_violations apps_workspace
            (workspace_names_of apps_workspace))
    = [{| v_name := lit "web"; v_kind := lit "app"; v_base := lit "api" |}] ∧
  filter (fun v => v_name v = lit "api" ∧ v_base v = lit "web")
         (direction_violations apps_workspace
            (workspace_names_of apps_workspace))
    = [].
Proof.
  assert (Hnd : NoDup apps_workspace.*1).
  { apply (bool_decide_unpack _). vm_compute. exact I. }
  assert (Hweb : (lit "web", mk_member "apps" ["web"%string]
                               ["shared"%string; "api>=1.0"%string])
                 ∈ apps_workspace).
  { unfold apps_workspace. rewrite !elem_of_cons. tauto. }
  assert (Hapi : (lit "api", mk_member "apps" ["api"%string] ["shared"%string])
                 ∈ apps_workspace).
  { unfold apps_workspace. rewrite !elem_of_cons. tauto. }
  split; [vm_compute; reflexivity|]. split.
  - destruct (app_on_app_violation apps_workspace (lit "web") (lit "api")
                _ _ Hnd Hweb Hapi eq_refl eq_refl)
      as (_ & _ & _ & _ & Hone & _).
    apply Hone. vm_compute. reflexivity.
  - destruct (app_on_app_violation apps_workspace (lit "api") (lit "web")
                _ _ Hnd Hapi Hweb eq_refl eq_refl)
      as (_ & _ & _ & _ & _ & Hnone).
    apply Hnone. vm_compute. reflexivity.
Defined.

(** ** The cycle detector *)

Lemma tc_subrel {A} (R1 R2 : relation A) x y :
  (∀ x y, R1 x y -> R2 x y) -> tc R1 x y -> tc R2 x y.
Proof.
  intros Hsub. induction 1 as [x y Hxy|x y z Hxy _ IH].
  - by apply tc_once, Hsub.
  - apply tc_l with y; [by apply Hsub|done].
Qed.

Lemma acyclic_by_rank (edge : relation (list N)) (rank : list N -> nat) :
  (∀ a b, edge a b -> rank b < rank a) -> acyclic edge.
Proof.
  intros Hrank a Ha.
  assert (Hlt : ∀ x y, tc edge x y -> rank y < rank x).
  { induction 1 as [x y Hxy|x y z Hxy _ IH]; [by apply Hrank|].
    apply Hrank in Hxy. lia. }
  apply Hlt in Ha. lia.
Qed.

Lemma res_bind_Ok {A B} (a : A) (f : A -> res B) : Ok a ≫= f = f a.
Proof. reflexivity. Qed.

Lemma for_each_cons {A S} (body : A -> S -> res S) x l st :
  for_each body (x :: l) st = body x st ≫= for_each body l.
Proof. reflexivity. Qed.

Lemma index_elem_of (x : list N) (l : list (list N)) :
  x ∈ l -> ∃ i, index x l = Some i.
Proof.
  induction l as [|y l IH]; [by intros []%elem_of_nil|].
  intros Hx. simpl. case_decide as Hy; [by eexists|].
  apply elem_of_cons in Hx as [->|Hx]; [done|].
  destruct (IH Hx) as [i ->]. by eexists.
Qed.

Section dfs.
Context (graph : gmap (list N) (list (list N))) (nodes : gset (list N)).
Hypothesis nodes_closed : ∀ a b, b ∈ get_list graph a -> b ∈ nodes.

Let edge := fun x y : list N => y ∈ get_list graph x.

Lemma dfs_frame_refl st : dfs_frame st st.
Proof. by repeat split. Qed.

Lemma dfs_frame_trans st1 st2 st3 :
  dfs_frame st1 st2 -> dfs_frame st2 st3 -> dfs_frame st1 st3.
Proof.
  intros (? & ? & ?) (? & ? & ?).
  repeat split; [by etrans|congruence..].
Qed.

Lemma unvisited_mono (v v' : gset (list N)) :
  v ⊆ v' -> size (nodes ∖ v') ≤ size (nodes ∖ v).
Proof. intros Hv. by apply subseteq_size, difference_mono_l. Qed.

Lemma unvisited_fresh (v : gset (list N)) node :
  node ∈ nodes -> node ∉ v ->
  size (nodes ∖ ({[node]} ∪ v)) < size (nodes ∖ v).
Proof.
  intros Hn Hv. apply subset_size. split.
  - apply difference_mono_l, union_subseteq_r.
  - intros Hsub. specialize (Hsub node).
    rewrite !elem_of_difference, elem_of_union, elem_of_singleton in Hsub.
    tauto.
Qed.

(** A call of [dfs] that has more frames left than there are unvisited
    nodes returns normally: it raises nothing, restores [in_stack] and
    [path], and only marks more nodes as visited.  When the graph is
    acyclic and every node on the path reaches [node], it reports
    nothing. *)
Lemma dfs_ok (frames : nat) node st :
  size (nodes ∖ visited st) < frames ->
  node ∈ nodes ->
  (∀ x, x ∈ in_stack st ↔ x ∈ path st) ->
  ∃ st', dfs graph frames node st = Ok st' ∧ dfs_frame st st' ∧
         (acyclic edge -> (∀ x, x ∈ path st -> tc edge x node) ->
          cycles st' = cycles st).
Proof.
  revert node st.
  induction frames as [|frames IH]; intros node st Hframes Hnode Hwf; [lia|].
  simpl. case_decide as Hstack.
  { destruct (index_elem_of node (path st)) as [i ->]; [by apply Hwf|].
    eexists. split; [done|]. split; [by repeat split|].
    intros Hacyclic Hreach. exfalso.
    apply (Hacyclic node), Hreach. by apply Hwf. }
  case_decide as Hvisited.
  { exists st. split; [done|]. split; [apply dfs_frame_refl|done]. }
  set (st1 := {| visited := {[node]} ∪ visited st;
                 in_stack := {[node]} ∪ in_stack st;
                 cycles := cycles st;
                 path := path st ++ [node] |}).
  assert (Hloop : ∀ l cur,
    (∀ n, n ∈ l -> edge node n) -> dfs_frame st1 cur ->
    ∃ st2, for_each (dfs graph frames) l cur = Ok st2 ∧ dfs_frame st1 st2 ∧
           (acyclic edge -> (∀ x, x ∈ path st -> tc edge x node) ->
            cycles st2 = cycles cur)).
  { induction l as [|n l IHl]; intros cur Hl Hcur.
    - exists cur. split; [done|]. by split.
    - rewrite for_each_cons. destruct Hcur as (Hv & Hs & Hp).
      destruct (IH n cur) as (cur' & -> & Hcur' & Hcycles).
      + pose proof (unvisited_mono _ _ Hv) as Hle.
        pose proof (unvisited_fresh (visited st) node Hnode Hvisited) as Hlt.
        simpl in Hle. lia.
      + apply (nodes_closed node). apply Hl. by left.
      + intros x. rewrite Hs, Hp. simpl.
        rewrite elem_of_union, elem_of_singleton, elem_of_app,
          list_elem_of_singleton, Hwf. tauto.
      + rewrite res_bind_Ok.
        destruct (IHl cur') as (st2 & -> & Hst2 & Hcycles2).
        * intros n' Hn'. apply Hl. by right.
        * by apply dfs_frame_trans with cur.
        * exists st2. split; [done|]. split; [done|].
          intros Hacyclic Hreach.
          rewrite Hcycles2, Hcycles; [done|done| |done|done].
          intros x. rewrite Hp. simpl.
          intros [Hx|Hx%list_elem_of_singleton]%elem_of_app; [|subst x].
          -- apply tc_r with node; [by apply Hreach|]. apply Hl. by left.
          -- apply tc_once. apply Hl. by left. }
  destruct (Hloop (get_list graph node) st1)
    as (st2 & -> & (Hv & Hs & Hp) & Hc); [done|apply dfs_frame_refl|].
  rewrite res_bind_Ok, Hp. simpl. rewrite pop_app.
  rewrite decide_True by (rewrite Hs; simpl; apply elem_of_union; left;
                          by apply elem_of_singleton).
  eexists. split; [done|]. split; [repeat split; simpl|].
  - etrans; [|exact Hv]. simpl. apply union_subseteq_r.
  - rewrite Hs. simpl. apply set_eq. intros x.
    rewrite elem_of_difference, elem_of_union, elem_of_singleton.
    split; [tauto|]. intros Hx. split; [by right|]. by intros ->.
  - intros Hacyclic Hreach. simpl. by rewrite Hc.
Qed.

End dfs.

(** [check_no_cycles] returns normally when more frames are left than the
    graph has nodes: the traversal raises no exception.  On an acyclic
    graph the list it returns is empty. *)
Lemma check_no_cycles_total (frames : nat)
    (members : list (list N * member)) (ws : gset (list N)) :
  size (graph_nodes members (build_graph members ws)) < frames ->
  ∃ reported,
    check_no_cycles frames members ws = Ok reported ∧
    (acyclic (declares_dependency members ws) -> reported = []).
Proof.
  intros Hframes. revert Hframes. unfold check_no_cycles.
  set (graph := build_graph members ws).
  set (nodes := graph_nodes members graph). intros Hframes.
  assert (Hsub : acyclic (declares_dependency members ws) ->
                 acyclic (fun x y => y ∈ get_list graph x)).
  { intros Hdeclared a Ha. apply (Hdeclared a). revert Ha. apply tc_subrel.
    intros x y. apply build_graph_spec. }
  assert (Hclosed : ∀ a b, b ∈ get_list graph a -> b ∈ nodes).
  { intros a b Hb. unfold nodes, graph_nodes. apply elem_of_union. right.
    by apply elem_of_range_names with a. }
  assert (Hloop : ∀ (l : list (list N * member)) st,
    (∀ nm, nm ∈ l -> nm.1 ∈ nodes) ->
    in_stack st = ∅ -> path st = [] ->
    ∃ st', for_each (fun '(name, _) st =>
                       if decide (name ∈ visited st) then Ok st
                       else dfs graph frames name
                              {| visited := visited st;
                                 in_stack := in_stack st;
                                 cycles := cycles st; path := [] |})
                    l st = Ok st' ∧
           (acyclic (declares_dependency members ws) ->
            cycles st' = cycles st)).
  { induction l as [|[name m] l IHl]; intros st Hl Hs Hp.
    - by exists st.
    - assert (Hrest : ∀ nm, nm ∈ l -> nm.1 ∈ nodes).
      { intros nm Hnm. apply Hl. by right. }
      rewrite for_each_cons. cbv beta iota.
      case_decide as Hvisited; [rewrite res_bind_Ok; by apply IHl|].
      destruct (dfs_ok graph nodes Hclosed frames name
                  {| visited := visited st; in_stack := in_stack st;
                     cycles := cycles st; path := [] |})
        as (st' & Hdfs & (Hv' & Hs' & Hp') & Hc').
      + simpl. eapply Nat.le_lt_trans; [|exact Hframes].
        apply subseteq_size. intros x. rewrite elem_of_difference. tauto.
      + apply (Hl (name, m)). by left.
      + intros x. simpl. rewrite Hs, elem_of_empty, elem_of_nil. tauto.
      + rewrite Hdfs, res_bind_Ok. simpl in *.
        destruct (IHl st') as (st'' & -> & Hc''); [done|congruence..|].
        exists st''. split; [done|]. intros Hacyclic.
        rewrite Hc'', Hc'; [done|by apply Hsub| |done].
        by intros x []%elem_of_nil. }
  destruct (Hloop members
              {| visited := ∅; in_stack := ∅; cycles := []; path := [] |})
    as (st' & -> & Hc); try done.
  - intros nm Hnm. unfold nodes, graph_nodes. apply elem_of_union. left.
    apply elem_of_list_to_set, list_elem_of_fmap. by exists nm.
  - rewrite res_bind_Ok. eexists. split; [done|].
    intros Hacyclic. by rewrite Hc.
Qed.






(** The chain that is reported when [A] is discovered first. *)
Example cycle_workspace_report (pa pb pc : rel_toml) :
  check_no_cycles 1000 (cycle_workspace pa pb pc)
                  (workspace_names_of (cycle_workspace pa pb pc))
  = Ok [cycle_message [lit "A"; lit "B"; lit "C"; lit "A"]].
Proof. vm_compute. reflexivity. Qed.

(** * Further properties of the scripts *)

(** ** The three views of the workspace graph *)

Section edge_lists.
Context (ws : gset (list N)) (key val : list N -> list N -> list N).

Let dict_step (name : list N) :=
  fun (acc : gmap (list N) (list (list N))) (dep : list N) =>
    let base := parse_dep_name dep in
    if decide (base ∈ ws) then append_at acc (key name base) (val name base)
    else acc.

Let list_step (name : list N) :=
  fun (edges : list (list N * list N)) (dep : list N) =>
    let base := parse_dep_name dep in
    if decide (base ∈ ws) then edges ++ [(name, base)] else edges.

(** The dict holds, under every key, the values of the listed edges with
    that key, in the order of the list. *)
Let agree (acc : gmap (list N) (list (list N)))
    (edges : list (list N * list N)) : Prop :=
  ∀ k, get_list acc k
       = (fun e => val e.1 e.2) <$> filter (fun e => key e.1 e.2 = k) edges.

Lemma edge_lists_inner name deps acc edges :
  agree acc edges ->
  agree (foldl (dict_step name) acc deps) (foldl (list_step name) edges deps).
Proof.
  revert acc edges.
  induction deps as [|dep deps IH]; intros acc edges Hagree; simpl; [done|].
  apply IH. unfold dict_step, list_step. cbv zeta.
  case_decide; [|done]. intros k.
  rewrite get_list_append_at, filter_app, fmap_app, <- !Hagree.
  rewrite filter_cons, filter_nil. simpl.
  case_decide; [by subst k|by rewrite app_nil_r].
Qed.

Lemma edge_lists_outer (members : list (list N * member)) acc edges :
  agree acc edges ->
  agree (foldl (fun acc '(name, m) =>
                  foldl (dict_step name) acc (dependencies m)) acc members)
        (foldl (fun edges '(name, m) =>
                  foldl (list_step name) edges (dependencies m))
               edges members).
Proof.
  revert acc edges.
  induction members as [|[name m] members IH]; intros acc edges Hagree;
    simpl; [done|].
  by apply IH, edge_lists_inner.
Qed.

End edge_lists.

(** X1: the three scripts derive the same edges.  The adjacency list that
    [check_no_cycles] traverses and the reverse map that
    [expand_dependents] follows are the two projections of the edge list
    that dep_graph.py draws, entry for entry; so the reverse map is the
    exact transpose of the forward graph. *)
Theorem graph_views_agree (members : list (list N * member))
    (a b : list N) :
  get_list (build_graph members (workspace_names_of members)) a
    = snd <$> filter (fun e => e.1 = a) (dep_graph_edges members) ∧
  get_list (build_reverse_deps members) b
    = fst <$> filter (fun e => e.2 = b) (dep_graph_edges members) ∧
  (a ∈ get_list (build_reverse_deps members) b ↔
   b ∈ get_list (build_graph members (workspace_names_of members)) a) ∧
  ((a, b) ∈ dep_graph_edges members ↔
   declares_dependency members (workspace_names_of members) a b).
Proof.
  assert (Hgraph : ∀ a,
    get_list (build_graph members (workspace_names_of members)) a
    = snd <$> filter (fun e => e.1 = a) (dep_graph_edges members)).
  { intros k.
    apply (edge_lists_outer (workspace_names_of members)
             (fun name _ => name) (fun _ base => base) members ∅ []).
    intros k'. unfold get_list. by rewrite lookup_empty. }
  assert (Hreverse : ∀ b,
    get_list (build_reverse_deps members) b
    = fst <$> filter (fun e => e.2 = b) (dep_graph_edges members)).
  { intros k.
    apply (edge_lists_outer (workspace_names_of members)
             (fun _ base => base) (fun name _ => name) members ∅ []).
    intros k'. unfold get_list. by rewrite lookup_empty. }
  assert (Hedge : (a, b) ∈ dep_graph_edges members ↔
                  b ∈ get_list (build_graph members
                                  (workspace_names_of members)) a).
  { rewrite Hgraph, list_elem_of_fmap. split.
    - intros Hab. exists (a, b). split; [done|].
      by apply list_elem_of_filter.
    - intros ([a' b'] & -> & [Ha Hin]%list_elem_of_filter).
      simpl in Ha. by subst a'. }
  split; [apply Hgraph|]. split; [apply Hreverse|]. split.
  - by rewrite build_reverse_deps_spec, build_graph_spec.
  - by rewrite Hedge, build_graph_spec.
Qed.

(** ** What the affected set is, exactly *)

Lemma expand_loop_least (rd : gmap (list N) (list (list N)))
    (P : list N -> Prop) (fuel : nat) (result : gset (list N))
    (queue : list (list N)) (r : gset (list N)) :
  (∀ p q, P p -> q ∈ get_list rd p -> P q) ->
  expand_loop fuel rd result queue = Some r ->
  (∀ p, p ∈ result -> P p) ->
  (∀ p, p ∈ queue -> p ∈ result) ->
  ∀ x, x ∈ r -> P x.
Proof.
  intros Hclosed. revert result queue.
  induction fuel as [|fuel IH]; intros result queue; simpl.
  - destruct (pop queue) as [[queue' pkg]|]; [done|]. by intros [= <-].
  - destruct (pop queue) as [[queue' pkg]|] eqn:Hpop; [|by intros [= <-]].
    apply pop_Some in Hpop as ->.
    destruct (add_dependents_spec (get_list rd pkg) result queue')
      as (new & -> & _ & Hnew).
    intros Hr HP Hqueue. apply (IH _ _ Hr).
    + intros p [Hp|Hp]%elem_of_union; [|by apply HP].
      apply elem_of_list_to_set, Hnew in Hp as [Hp _].
      apply (Hclosed pkg); [|done]. apply HP, Hqueue.
      apply elem_of_app. right. by left.
    + intros p [Hp|Hp]%elem_of_app.
      * apply elem_of_union. right. apply Hqueue, elem_of_app. by left.
      * apply elem_of_union. left. by apply elem_of_list_to_set.
Qed.

(** X2: the set [expand_dependents] returns holds exactly the packages
    from which a changed package can be reached along declared workspace
    dependencies: the changed packages and their direct and transitive
    dependents, and nothing else. *)
Theorem expand_dependents_reachable (members : list (list N * member))
    (changed : gset (list N)) :
  ∃ affected,
    expand_dependents changed (build_reverse_deps members) = Some affected ∧
    ∀ x, x ∈ affected ↔
         ∃ c, c ∈ changed ∧
              rtc (declares_dependency members (workspace_names_of members))
                  x c.
Proof.
  destruct (expand_dependents_exact (build_reverse_deps members) changed)
    as (r & Hr & _).
  exists r. split; [done|]. intros x. split.
  - revert x. unfold expand_dependents in Hr.
    eapply expand_loop_least; [|exact Hr|..].
    + intros p q (c & Hc & Hpc) Hq. exists c. split; [done|].
      apply rtc_l with p; [|done]. by apply build_reverse_deps_spec.
    + intros p Hp. by exists p.
    + intros p. apply elem_of_elements.
  - apply expand_dependents_closure in Hr as (Hsub & Hclosed & _).
    intros (c & Hc & Hxc). induction Hxc as [x|x y z Hxy _ IH].
    + by apply Hsub.
    + apply (Hclosed y x); [by apply IH|]. by apply build_reverse_deps_spec.
Qed.

(** ** Owners of changed files *)

Lemma file_to_package_Some (filepath : list N)
    (members : list (list N * member)) (name : list N) :
  file_to_package filepath members = Some name ->
  ∃ m, (name, m) ∈ members ∧ dir_matches filepath (pkg_dir_of (toml_path m)).
Proof.
  induction members as [|[name' m] members IH]; simpl; [done|].
  destruct (startswith filepath (pkg_dir_of (toml_path m) ++ lit "/")
            || bool_decide (filepath = pkg_dir_of (toml_path m))) eqn:Hm.
  - intros [= ->]. exists m. split; [by left|]. by apply dir_matches_spec.
  - intros (m' & ? & ?)%IH. exists m'. split; [by right|done].
Qed.

Lemma file_to_package_None (filepath : list N)
    (members : list (list N * member)) :
  file_to_package filepath members = None ↔
  ∀ name m, (name, m) ∈ members ->
            ¬ dir_matches filepath (pkg_dir_of (toml_path m)).
Proof.
  induction members as [|[name' m] members IH]; simpl.
  - split; [|done]. by intros _ ? ? []%elem_of_nil.
  - destruct (startswith filepath (pkg_dir_of (toml_path m) ++ lit "/")
              || bool_decide (filepath = pkg_dir_of (toml_path m))) eqn:Hm.
    + split; [done|]. intros Hall. exfalso.
      apply (Hall name' m); [by left|]. by apply dir_matches_spec.
    + rewrite IH. split.
      * intros Hall name m0 [[= -> ->]|?]%elem_of_cons;
          [|by apply (Hall name)].
        intros Hd%dir_matches_spec. congruence.
      * intros Hall name m0 ?. apply (Hall name). by right.
Qed.

(** X3: when the package directories are disjoint, in the sense that no
    path is matched by the directories of two different members, the owner
    [file_to_package] finds does not depend on the order of the members:
    it is the one member whose directory matches, and [None] exactly when
    no directory matches. *)
Theorem file_to_package_unambiguous (filepath : list N)
    (members : list (list N * member)) (name : list N) (m : member) :
  (∀ n1 m1 n2 m2,
     (n1, m1) ∈ members -> (n2, m2) ∈ members ->
     dir_matches filepath (pkg_dir_of (toml_path m1)) ->
     dir_matches filepath (pkg_dir_of (toml_path m2)) -> n1 = n2) ->
  (name, m) ∈ members ->
  dir_matches filepath (pkg_dir_of (toml_path m)) ->
  ∀ members', members' ≡ₚ members ->
              file_to_package filepath members' = Some name.
Proof.
  intros Hunique Hin Hmatch members' Hperm.
  destruct (file_to_package filepath members') as [name'|] eqn:Hf.
  - apply file_to_package_Some in Hf as (m' & Hin' & Hmatch').
    f_equal. apply (Hunique name' m' name m); [|done..].
    by rewrite <- Hperm.
  - exfalso. rewrite file_to_package_None in Hf.
    apply (Hf name m); [|done]. by rewrite Hperm.
Qed.

Lemma file_to_package_unambiguous_witness :
  file_to_package (lit "libs/B/src/b.py") chain_workspace = Some (lit "B") ∧
  file_to_package (lit "libs/B/src/b.py") (reverse chain_workspace)
  = Some (lit "B").
Proof.
  assert (Hunique : ∀ n1 m1 n2 m2,
     (n1, m1) ∈ chain_workspace -> (n2, m2) ∈ chain_workspace ->
     dir_matches (lit "libs/B/src/b.py") (pkg_dir_of (toml_path m1)) ->
     dir_matches (lit "libs/B/src/b.py") (pkg_dir_of (toml_path m2)) ->
     n1 = n2).
  { intros n1 m1 n2 m2 H1 H2 Hm1 Hm2.
    unfold chain_workspace in H1, H2.
    rewrite !elem_of_cons, elem_of_nil in H1, H2.
    apply dir_matches_spec in Hm1, Hm2.
    destruct H1 as [[= -> ->]|[[= -> ->]|[[= -> ->]|[]]]];
      destruct H2 as [[= -> ->]|[[= -> ->]|[[= -> ->]|[]]]];
      vm_compute in Hm1, Hm2; congruence. }
  assert (Hin : (lit "B", mk_member "libs" ["B"%string] ["C>=1.0"%string])
                ∈ chain_workspace).
  { unfold chain_workspace. rewrite !elem_of_cons. tauto. }
  assert (Hmatch : dir_matches (lit "libs/B/src/b.py")
            (pkg_dir_of (toml_path
               (mk_member "libs" ["B"%string] ["C>=1.0"%string])))).
  { right. by exists (lit "src/b.py"). }
  split.
  - by apply (file_to_package_unambiguous _ _ _ _ Hunique Hin Hmatch).
  - apply (file_to_package_unambiguous _ _ _ _ Hunique Hin Hmatch).
    apply reverse_Permutation.
Defined.

(** ** Affected packages are workspace members *)

Lemma range_names_elem (d : gmap (list N) (list (list N))) (q : list N) :
  q ∈ range_names d -> ∃ p, q ∈ get_list d p.
Proof.
  unfold range_names. intros (X & HX & Hq)%elem_of_union_list.
  apply list_elem_of_fmap in HX as ([p l] & -> & Hpl%elem_of_map_to_list).
  exists p. unfold get_list. rewrite Hpl. simpl.
  by apply elem_of_list_to_set in Hq.
Qed.

Lemma declares_dependency_member (members : list (list N * member))
    (ws : gset (list N)) (q p : list N) :
  declares_dependency members ws q p -> q ∈ workspace_names_of members.
Proof.
  intros (m & dep & Hm & _). apply elem_of_list_to_set, list_elem_of_fmap.
  by exists (q, m).
Qed.

Lemma directly_changed_members (changed_files : list (list N))
    (members : list (list N * member)) :
  directly_changed_of changed_files members ⊆ workspace_names_of members.
Proof.
  intros x (f & _ & Hf & _)%directly_changed_of_spec.
  apply file_to_package_Some in Hf as (m & Hm & _).
  apply elem_of_list_to_set, list_elem_of_fmap. by exists (x, m).
Qed.

Lemma expand_dependents_members (members : list (list N * member))
    (changed affected : gset (list N)) :
  changed ⊆ workspace_names_of members ->
  expand_dependents changed (build_reverse_deps members) = Some affected ->
  affected ⊆ workspace_names_of members.
Proof.
  intros Hchanged Hexp.
  destruct (expand_dependents_exact (build_reverse_deps members) changed)
    as (r & Hr & _ & Hsup & _).
  rewrite Hr in Hexp. injection Hexp as <-.
  intros x [Hx|Hx]%Hsup%elem_of_union; [by apply Hchanged|].
  apply range_names_elem in Hx as (p & Hx%build_reverse_deps_spec).
  by apply declares_dependency_member in Hx.
Qed.

Lemma main_affected_members (force_all : bool)
    (members : list (list N * member)) (changed_files : list (list N))
    (affected : gset (list N)) (run_all : bool) :
  main force_all members changed_files = Some (affected, run_all) ->
  affected ⊆ workspace_names_of members.
Proof.
  unfold main. destruct force_all; [by intros [= <- _]|].
  destruct (existsb is_infra_file changed_files); [by intros [= <- _]|].
  destruct (expand_dependents _ _) as [r|] eqn:Hr; [|done].
  intros [= <- _].
  apply (expand_dependents_members members _ _
           (directly_changed_members changed_files members) Hr).
Qed.

(** ** Reading the output of git *)

Lemma split_no_sep (sep : N) (s : list N) :
  Forall (fun piece => sep ∉ piece) (split sep s).
Proof.
  induction s as [|c s IH]; simpl.
  - constructor; [apply not_elem_of_nil|constructor].
  - destruct (N.eqb_spec c sep) as [->|Hne].
    + constructor; [apply not_elem_of_nil|done].
    + destruct (split sep s) as [|piece pieces]; simpl.
      * constructor; [|constructor]. rewrite list_elem_of_singleton. congruence.
      * apply Forall_cons in IH as [Hpiece Hpieces]. constructor; [|done].
        rewrite not_elem_of_cons. split; [congruence|done].
Qed.

(** X4: [get_changed_files] never returns an empty path nor a path that
    contains a line break, whatever git printed; and when git fails it
    returns no path at all. *)
Theorem get_changed_files_clean (returncode : Z) (stdout f : list N) :
  (returncode ≠ 0%Z -> get_changed_files returncode stdout = []) ∧
  (f ∈ get_changed_files returncode stdout -> f ≠ [] ∧ 10%N ∉ f).
Proof.
  unfold get_changed_files. split.
  - intros Hrc. by rewrite decide_True.
  - case_decide; [by intros []%elem_of_nil|].
    intros [Hf Hin]%list_elem_of_filter. split.
    + by destruct f.
    + pose proof (split_no_sep 10%N (strip stdout)) as Hall.
      rewrite Forall_forall in Hall. by apply Hall.
Qed.

Lemma get_changed_files_clean_witness :
  get_changed_files 128 (lit "fatal: bad revision") = [] ∧
  get_changed_files 0 [108; 105; 98; 115; 47; 97; 10; 10; 98; 10]%N
  = [lit "libs/a"; lit "b"].
Proof.
  split.
  - apply (get_changed_files_clean 128 (lit "fatal: bad revision") []). lia.
  - reflexivity.
Defined.

(** X5: when [git diff] fails, affected.py reports that no package is
    affected and does not ask for a run of everything. *)
Theorem git_failure_affects_nothing (returncode : Z) (stdout : list N)
    (members : list (list N * member)) :
  returncode ≠ 0%Z ->
  main false members (get_changed_files returncode stdout) = Some (∅, false).
Proof.
  intros Hrc. unfold get_changed_files. rewrite decide_True by done.
  unfold main. simpl. unfold directly_changed_of. simpl.
  by rewrite expand_dependents_empty.
Qed.

Lemma git_failure_affects_nothing_witness :
  main false chain_workspace (get_changed_files 128 (lit "libs/C/c.py"))
  = Some (∅, false).
Proof. apply git_failure_affects_nothing. lia. Defined.

(** ** The two change detectors *)

Lemma is_root_change_infra (f : list N) :
  DetectChanges.is_root_change f = true -> is_infra_file f = true.
Proof.
  unfold DetectChanges.is_root_change. rewrite orb_true_iff, bool_decide_eq_true.
  rewrite !elem_of_cons, elem_of_nil. intros Hf.
  apply is_infra_file_spec.
  destruct Hf as [[->|[->|[->|[]]]]|Hf]; [by left|right..].
  - exists (lit ".python-version"). split; [|by split; [|left]].
    unfold INFRA_PATTERNS. rewrite !elem_of_cons. tauto.
  - exists (lit "uv.lock"). split; [|by split; [|left]].
    unfold INFRA_PATTERNS. rewrite !elem_of_cons. tauto.
  - exists (lit "scripts/"). split; [|by split; [|right]].
    unfold INFRA_PATTERNS. rewrite !elem_of_cons. tauto.
Qed.

(** X6: on the same members and changed files, detect_changes.py never
    selects a package that affected.py leaves out; the two select the same
    packages whenever affected.py sees no infrastructure change, and
    whenever detect_changes.py sees a change of the root configuration. *)
Theorem detect_changes_within_affected
    (members : list (list N * member)) (changed_files : list (list N)) :
  ∃ affected run_all detected,
    main false members changed_files = Some (affected, run_all) ∧
    DetectChanges.main members changed_files = Some detected ∧
    detected ⊆ affected ∧
    (existsb is_infra_file changed_files = false -> detected = affected) ∧
    (existsb DetectChanges.is_root_change changed_files = true ->
     detected = affected).
Proof.
  unfold DetectChanges.main.
  destruct (existsb DetectChanges.is_root_change changed_files) eqn:Hroot.
  - assert (Hinfra : existsb is_infra_file changed_files = true).
    { apply existsb_exists in Hroot as (f & Hf & Hroot).
      apply existsb_exists. exists f. split; [done|].
      by apply is_root_change_infra. }
    exists (workspace_names_of members), true, (workspace_names_of members).
    rewrite (main_infra _ _ _ Hinfra). by repeat split.
  - destruct (existsb is_infra_file changed_files) eqn:Hinfra.
    + destruct (expand_dependents_exact (build_reverse_deps members)
                  (directly_changed_of changed_files members))
        as (r & Hr & _).
      exists (workspace_names_of members), true, r.
      rewrite (main_infra _ _ _ Hinfra).
      split; [done|]. split; [done|]. split; [|done].
      apply (expand_dependents_members members _ _
               (directly_changed_members changed_files members) Hr).
    + destruct (main_no_infra members changed_files Hinfra)
        as (r & Hmain & Hr).
      exists r, false, r. by repeat split.
Qed.

(** [.github/] is an infrastructure directory for affected.py only. *)
Example github_change_detectors_differ :
  main false chain_workspace [lit ".github/workflows/ci.yml"]
    = Some (list_to_set [lit "A"; lit "B"; lit "C"], true) ∧
  DetectChanges.main chain_workspace [lit ".github/workflows/ci.yml"]
    = Some ∅.
Proof. split; vm_compute; reflexivity. Qed.

Lemma split_without_sep (sep : N) (s : list N) :
  sep ∉ s -> split sep s = [s].
Proof.
  induction s as [|c s IH]; simpl; [done|].
  rewrite not_elem_of_cons. intros [Hne Hs].
  destruct (N.eqb_spec c sep); [congruence|]. by rewrite IH.
Qed.

Lemma split_app_sep (sep : N) (s rest : list N) :
  sep ∉ s -> split sep (s ++ sep :: rest) = s :: split sep rest.
Proof.
  induction s as [|c s IH]; simpl.
  - intros _. by rewrite N.eqb_refl.
  - rewrite not_elem_of_cons. intros [Hne Hs].
    destruct (N.eqb_spec c sep); [congruence|]. by rewrite IH.
Qed.

Lemma split_join (sep : N) (l : list (list N)) :
  l ≠ [] -> Forall (fun s => sep ∉ s) l -> split sep (join [sep] l) = l.
Proof.
  induction l as [|x l IH]; [done|]. intros _ [Hx Hl]%Forall_cons.
  destruct l as [|y l]; [by apply split_without_sep|].
  change (join [sep] (x :: y :: l)) with (x ++ sep :: join [sep] (y :: l)).
  rewrite split_app_sep by done. f_equal. by apply IH.
Qed.

Lemma join_last (sep : list N) (l : list (list N)) (y : list N) :
  ∃ t, join sep (l ++ [y]) = t ++ y.
Proof.
  induction l as [|x l [t Ht]]; [by exists []|].
  destruct l as [|x' l].
  - exists (x ++ sep). simpl. by rewrite <- app_assoc.
  - exists (x ++ sep ++ t). simpl in *. rewrite Ht. by rewrite <- !app_assoc.
Qed.

Lemma rstrip_snoc_space (s : list N) (c : N) :
  isspace c = true -> rstrip (s ++ [c]) = rstrip s.
Proof.
  intros Hc. induction s as [|d s IH]; simpl; [by rewrite Hc|].
  by rewrite IH.
Qed.

Lemma rstrip_snoc_nonspace (s : list N) (c : N) :
  isspace c = false -> rstrip (s ++ [c]) = s ++ [c].
Proof.
  intros Hc. induction s as [|d s IH]; simpl; [by rewrite Hc|].
  rewrite IH. by destruct s.
Qed.

(** X7: [get_changed_files] returns the lines of the output as they are.
    When the exit code is 0 and the output consists of lines, each followed
    by a line break, that are not empty and have no white space at either
    end, the result is the list of these lines, in order and unchanged: a
    line is not unquoted, so a path that was printed between quotes with
    escapes comes back as that quoted text. *)
Theorem get_changed_files_lines (files : list (list N)) :
  Forall plain_line files ->
  get_changed_files 0 (join [10%N] files ++ [10%N]) = files.
Proof.
  intros Hfiles. unfold get_changed_files. rewrite decide_False by lia.
  assert (Hfilter : filter (fun f => truthy f = true) files = files).
  { induction Hfiles as [|f l [Hf _] _ IH]; [done|].
    rewrite filter_cons, IH. by destruct f. }
  destruct (decide (files = [])) as [->|Hne]; [done|].
  assert (Hstrip : strip (join [10%N] files ++ [10%N]) = join [10%N] files).
  { unfold strip.
    destruct files as [|f l]; [done|].
    apply Forall_cons in Hfiles as Hhead. destruct Hhead as [(Hf & _ & Hc & _) _].
    destruct f as [|c t]; [done|].
    assert (Hlstrip : lstrip (join [10%N] ((c :: t) :: l) ++ [10%N])
                      = join [10%N] ((c :: t) :: l) ++ [10%N]).
    { destruct l; simpl; by rewrite (Hc c t). }
    rewrite Hlstrip, rstrip_snoc_space by done.
    destruct (exists_last Hne) as (l' & y & Heq). rewrite Heq.
    rewrite Heq in Hfiles. apply Forall_app in Hfiles as [_ Hy].
    apply Forall_cons in Hy as [(Hy & _ & _ & Hlast) _].
    destruct (join_last [10%N] l' y) as [t' ->].
    destruct (exists_last Hy) as (y' & d & ->).
    rewrite app_assoc. apply rstrip_snoc_nonspace. by apply (Hlast d y'). }
  rewrite Hstrip, split_join; [done|done|].
  eapply Forall_impl; [exact Hfiles|]. by intros f (_ & ? & _).
Qed.

Lemma plain_line_check (f : list N) :
  match f, last f with
  | c :: _, Some d =>
      negb (isspace c) && negb (isspace d)
      && forallb (fun c => negb (c =? 10)%N) f
  | _, _ => false
  end = true ->
  plain_line f.
Proof.
  destruct f as [|c t]; [done|].
  destruct (last (c :: t)) as [d|] eqn:Hlast; [|done].
  rewrite !andb_true_iff, !negb_true_iff, forallb_forall.
  intros [[Hc Hd] Hall]. repeat split; [done| | |].
  - intros Hin%list_elem_of_In%Hall. by rewrite N.eqb_refl in Hin.
  - by intros ? ? [= <- _].
  - intros d' t' Heq. rewrite Heq, last_snoc in Hlast. congruence.
Qed.

Lemma get_changed_files_lines_witness :
  get_changed_files 0
    (join [10%N] [lit "libs/a b.py";
                  [34%N] ++ lit "libs/A/\303\251.py" ++ [34%N];
                  lit "uv.lock"] ++ [10%N])
  = [lit "libs/a b.py";
     [34%N] ++ lit "libs/A/\303\251.py" ++ [34%N];
     lit "uv.lock"].
Proof.
  apply get_changed_files_lines.
  repeat apply Forall_cons_2; [by apply plain_line_check..|constructor].
Defined.

(** ** Sorting names *)

Lemma str_le_refl (a : list N) : str_le a a = true.
Proof.
  induction a as [|x a IH]; simpl; [done|].
  by rewrite N.ltb_irrefl, N.eqb_refl.
Qed.

#[global] Instance str_order_total : Total str_order.
Proof.
  intros a. unfold str_order. induction a as [|x a IH]; intros [|y b]; simpl;
    auto.
  destruct (N.ltb_spec x y), (N.ltb_spec y x), (N.eqb_spec x y),
    (N.eqb_spec y x); auto; try lia.
Qed.

#[global] Instance str_order_trans : Transitive str_order.
Proof.
  intros a. unfold str_order.
  induction a as [|x a IH]; intros [|y b] [|z c]; simpl; try done.
  destruct (N.ltb_spec x y), (N.ltb_spec y z), (N.ltb_spec x z),
    (N.eqb_spec x y), (N.eqb_spec y z), (N.eqb_spec x z);
    try done; try lia.
  apply IH.
Qed.

#[global] Instance str_order_antisymm : AntiSymm (=) str_order.
Proof.
  intros a. unfold str_order.
  induction a as [|x a IH]; intros [|y b]; simpl; try done.
  destruct (N.ltb_spec x y), (N.ltb_spec y x), (N.eqb_spec x y),
    (N.eqb_spec y x); try done; try lia.
  intros Hab Hba. subst y. f_equal. by apply IH.
Qed.

Lemma sorted_unique (l l' : list (list N)) :
  l' ≡ₚ l -> Sorted str_order l' -> l' = sorted l.
Proof.
  intros Hperm Hsorted. apply (Sorted_unique str_order); [done| |].
  - apply Sorted_merge_sort, _.
  - unfold sorted. by rewrite Hperm, merge_sort_Permutation.
Qed.

(** ** The output of affected.py *)

Lemma dict_get_Some_elem {V} (d : list (list N * V)) (k : list N) (v : V) :
  dict_get d k = Some v -> (k, v) ∈ d.
Proof.
  induction d as [|[k' v'] d IH]; simpl; [done|].
  case_decide as Hk; [intros [= ->]; subst; by left|].
  intros ?%IH. by right.
Qed.

Lemma dict_get_is_Some {V} (d : list (list N * V)) (k : list N) :
  k ∈ d.*1 -> is_Some (dict_get d k).
Proof.
  induction d as [|[k' v'] d IH]; simpl; [by intros []%elem_of_nil|].
  case_decide as Hk; [by eexists|].
  intros [?|?]%elem_of_cons; [done|by apply IH].
Qed.

Lemma build_output_paths (src_exists : list N -> bool)
    (members : list (list N * member)) (names lint src test : list (list N)) :
  Forall (fun name => name ∈ members.*1) names ->
  for_each
    (fun name '(lint_paths, src_paths, test_paths) =>
       match dict_get members name with
       | None => Raise KeyError
       | Some m =>
           let pkg_dir := pkg_dir_of (toml_path m) in
           let src_dir := pkg_dir ++ lit "/src" in
           Ok (lint_paths ++ [pkg_dir],
               src_paths ++ [if src_exists src_dir then src_dir else pkg_dir],
               test_paths ++ [pkg_dir])
       end)
    names (lint, src, test)
  = Ok (lint ++ (listed_dir members <$> names),
        src ++ (listed_src src_exists members <$> names),
        test ++ (listed_dir members <$> names)).
Proof.
  intros Hnames. revert lint src test.
  induction Hnames as [|name names Hname _ IH]; intros lint src test; simpl.
  - by rewrite !app_nil_r.
  - unfold listed_src, listed_dir.
    destruct (dict_get_is_Some members name Hname) as [m ->]. simpl.
    rewrite IH. by rewrite <- !app_assoc.
Qed.

Lemma main_total (force_all : bool) (members : list (list N * member))
    (changed_files : list (list N)) :
  ∃ affected run_all,
    main force_all members changed_files = Some (affected, run_all).
Proof.
  destruct force_all; [by eexists _, _|].
  destruct (existsb is_infra_file changed_files) eqn:Hinfra.
  - eexists _, _. by apply main_infra.
  - destruct (main_no_infra members changed_files Hinfra) as (r & Hr & _).
    by eexists _, _.
Qed.

(** X8: affected.py always produces its output: every affected package is
    a workspace member, so the lookup [members[name]] in [build_output]
    cannot fail.  The packages are listed in ascending order without
    repetition, they are exactly the affected set, the lint and test paths
    are the package directories in the same order, and each source path is
    the package directory or its existing [src] subdirectory. *)
Theorem affected_output_ok (src_exists : list N -> bool) (force_all : bool)
    (members : list (list N * member)) (changed_files : list (list N)) :
  ∃ affected run_all out,
    main force_all members changed_files = Some (affected, run_all) ∧
    affected_output src_exists force_all members changed_files = Ok out ∧
    out_all out = run_all ∧
    (∀ name, name ∈ out_packages out ↔ name ∈ affected) ∧
    Sorted str_order (out_packages out) ∧
    NoDup (out_packages out) ∧
    Forall (fun name => name ∈ members.*1) (out_packages out) ∧
    out_lint_paths out = listed_dir members <$> out_packages out ∧
    out_test_paths out = out_lint_paths out ∧
    out_src_paths out = listed_src src_exists members <$> out_packages out.
Proof.
  destruct (main_total force_all members changed_files)
    as (affected & run_all & Hmain).
  pose proof (main_affected_members _ _ _ _ _ Hmain) as Hmembers.
  assert (Hperm : sorted (elements affected) ≡ₚ elements affected)
    by apply merge_sort_Permutation.
  assert (Hnames : Forall (fun name => name ∈ members.*1)
                          (sorted (elements affected))).
  { apply Forall_forall. intros name Hname. rewrite Hperm in Hname.
    apply elem_of_elements, Hmembers in Hname.
    by apply elem_of_list_to_set in Hname. }
  exists affected, run_all. eexists.
  split; [done|]. unfold affected_output, build_output. rewrite Hmain.
  rewrite (build_output_paths _ _ _ [] [] [] Hnames).
  split; [reflexivity|]. simpl.
  split; [done|]. split; [|split; [|split]].
  - intros name. by rewrite Hperm, elem_of_elements.
  - apply Sorted_merge_sort, _.
  - rewrite Hperm. apply NoDup_elements.
  - done.
Qed.

(** ** Discovering the members *)

Lemma dict_get_set {V} (d : list (list N * V)) (k k' : list N) (v : V) :
  dict_get (dict_set d k v) k'
  = if decide (k = k') then Some v else dict_get d k'.
Proof.
  induction d as [|[k0 v0] d IH]; simpl.
  - by repeat case_decide.
  - destruct (decide (k0 = k)) as [->|Hne]; simpl.
    + by repeat case_decide.
    + rewrite IH. repeat case_decide; congruence.
Qed.

Lemma dict_set_keys {V} (d : list (list N * V)) (k k' : list N) (v : V) :
  k' ∈ (dict_set d k v).*1 ↔ k' = k ∨ k' ∈ d.*1.
Proof.
  induction d as [|[k0 v0] d IH]; simpl.
  - rewrite list_elem_of_singleton, elem_of_nil. tauto.
  - case_decide as Hk; simpl; rewrite !elem_of_cons.
    + subst k0. tauto.
    + rewrite IH. tauto.
Qed.

Lemma dict_set_NoDup {V} (d : list (list N * V)) (k : list N) (v : V) :
  NoDup d.*1 -> NoDup (dict_set d k v).*1.
Proof.
  induction d as [|[k0 v0] d IH]; simpl; [intros _; apply NoDup_singleton|].
  intros [Hk0 Hd]%NoDup_cons. case_decide as Hk; simpl.
  - subst k0. by constructor.
  - constructor; [|by apply IH]. rewrite dict_set_keys. intros [?|?]; done.
Qed.

Lemma dict_get_None {V} (d : list (list N * V)) (k : list N) :
  k ∉ d.*1 -> dict_get d k = None.
Proof.
  induction d as [|[k0 v0] d IH]; simpl; [done|].
  rewrite not_elem_of_cons. intros [Hne Hk].
  rewrite decide_False by done. by apply IH.
Qed.

(** X9: the dict [discover_members] builds has no empty name and no name
    twice; a manifest without a name, or with an empty one, is skipped;
    and when several manifests declare the same name, the entry of that
    name is the one of the manifest discovered last. *)
Theorem discover_members_last_wins (found : list (rel_toml * pyproject))
    (name : list N) :
  NoDup (discover_members found).*1 ∧
  ([] ∉ (discover_members found).*1) ∧
  dict_get (discover_members found) name
    = (if truthy name then last (declared_as name found) else None) ∧
  (name ∈ (discover_members found).*1 ↔
   name ≠ [] ∧ ∃ toml_path data,
     (toml_path, data) ∈ found ∧ project_name data = Some name).
Proof.
  unfold discover_members, declared_as.
  induction found as [|[p data] found IH] using rev_ind.
  - simpl. split; [constructor|]. split; [apply not_elem_of_nil|].
    split; [by destruct (truthy name)|].
    split; [by intros []%elem_of_nil|].
    by intros (_ & ? & ? & []%elem_of_nil & _).
  - rewrite foldl_snoc, omap_app. simpl.
    destruct IH as (Hnd & Hempty & Hget & Hkeys).
    set (members := foldl _ [] found) in *.
    assert (Hlater : (∃ toml_path data0,
                (toml_path, data0) ∈ found ++ [(p, data)] ∧
                project_name data0 = Some name) ↔
              (∃ toml_path data0, (toml_path, data0) ∈ found ∧
                project_name data0 = Some name) ∨
              project_name data = Some name).
    { split.
      - intros (p' & d' & [Hin|Hin%list_elem_of_singleton]%elem_of_app & Hn).
        + left. by exists p', d'.
        + right. by injection Hin as -> ->.
      - intros [(p' & d' & Hin & Hn)|Hn].
        + exists p', d'. split; [|done]. apply elem_of_app. by left.
        + exists p, data. split; [|done]. apply elem_of_app. right. by left. }
    rewrite Hlater. clear Hlater.
    destruct (project_name data) as [n|] eqn:Hn.
    + destruct n as [|c n]; simpl.
      * split; [done|]. split; [done|].
        case_decide as Hname.
        -- injection Hname as <-. simpl. split; [by apply dict_get_None|].
           rewrite Hkeys. naive_solver.
        -- simpl. rewrite app_nil_r. split; [done|]. rewrite Hkeys.
           naive_solver.
      * split; [by apply dict_set_NoDup|]. split.
        { rewrite dict_set_keys. by intros [?|?]. }
        rewrite dict_get_set, dict_set_keys.
        case_decide as Hname.
        -- rewrite decide_True by congruence. simpl.
           rewrite last_snoc. subst name. simpl. split; [done|].
           naive_solver.
        -- rewrite decide_False by congruence. simpl. rewrite app_nil_r.
           split; [done|]. rewrite Hkeys. naive_solver.
    + simpl. rewrite app_nil_r. split; [done|]. split; [done|].
      split; [done|]. rewrite Hkeys. naive_solver.
Qed.

(** ** What the cycle detector reports *)

(** A rule for reasoning about a call of [dfs] that returns, by its three
    cases, whatever the number of frames. *)
Section dfs_rule.
Context (graph : gmap (list N) (list (list N))).
Context (P : list N -> dfs_state -> dfs_state -> Prop).

Hypothesis P_cycle : ∀ node st i,
  node ∈ in_stack st -> index node (path st) = Some i ->
  P node st
    {| visited := visited st; in_stack := in_stack st;
       cycles := cycles st
                 ++ [cycle_message (drop i (path st) ++ [node])];
       path := path st |}.

Hypothesis P_visited : ∀ node st,
  node ∉ in_stack st -> node ∈ visited st -> P node st st.

Hypothesis P_explore : ∀ node st st2 path' top,
  node ∉ in_stack st -> node ∉ visited st ->
  steps P (get_list graph node)
        {| visited := {[node]} ∪ visited st;
           in_stack := {[node]} ∪ in_stack st;
           cycles := cycles st; path := path st ++ [node] |} st2 ->
  pop (path st2) = Some (path', top) -> node ∈ in_stack st2 ->
  P node st
    {| visited := visited st2; in_stack := in_stack st2 ∖ {[node]};
       cycles := cycles st2; path := path' |}.

Lemma for_each_steps (body : list N -> dfs_state -> res dfs_state)
    (l : list (list N)) (st st' : dfs_state) :
  (∀ n st st', body n st = Ok st' -> P n st st') ->
  for_each body l st = Ok st' -> steps P l st st'.
Proof.
  intros Hbody. revert st.
  induction l as [|n l IH]; intros st; simpl.
  - intros [= <-]. constructor.
  - destruct (body n st) as [st1| |] eqn:Hn; simpl; [|done..].
    intros Hl. apply steps_cons with st1; [by apply Hbody|by apply IH].
Qed.

Lemma dfs_rule (frames : nat) (node : list N) (st st' : dfs_state) :
  dfs graph frames node st = Ok st' -> P node st st'.
Proof.
  revert node st st'.
  induction frames as [|frames IH]; intros node st st'; simpl; [done|].
  case_decide as Hstack.
  { destruct (index node (path st)) as [i|] eqn:Hi; [|done].
    intros [= <-]. by apply P_cycle. }
  case_decide as Hvisited.
  { intros [= <-]. by apply P_visited. }
  destruct (for_each (dfs graph frames) (get_list graph node) _)
    as [st2| |] eqn:Hloop; simpl; [|done..].
  destruct (pop (path st2)) as [[path' top]|] eqn:Hpop; [|done].
  case_decide as Hin; [|done]. intros [= <-].
  apply P_explore with top; try done.
  by apply for_each_steps with (dfs graph frames).
Qed.

End dfs_rule.

Section chains.
Context (edge : relation (list N)).

Lemma chain_tail x l : chain edge (x :: l) -> chain edge l.
Proof. destruct l; simpl; [done|]. by intros [_ ?]. Qed.

Lemma chain_drop i l : chain edge l -> chain edge (drop i l).
Proof.
  revert l. induction i as [|i IH]; intros [|x l]; simpl; try done.
  intros Hl. apply IH. by apply chain_tail with x.
Qed.

Lemma chain_snoc l x y :
  chain edge (l ++ [x]) -> edge x y -> chain edge ((l ++ [x]) ++ [y]).
Proof.
  intros Hl Hxy. induction l as [|z l IH]; simpl; [done|].
  simpl in Hl. destruct l as [|w l]; simpl in *.
  - destruct Hl as [Hzx _]. by repeat split.
  - destruct Hl as [Hzw Hl]. split; [done|]. by apply IH.
Qed.

Lemma chain_subrel (edge' : relation (list N)) l :
  (∀ x y, edge x y -> edge' x y) -> chain edge l -> chain edge' l.
Proof.
  intros Hsub. induction l as [|x [|y l] IH]; simpl; try done.
  intros [Hxy Hl]. split; [by apply Hsub|by apply IH].
Qed.

Lemma rank_of_le order x : rank_of order x ≤ length order.
Proof.
  induction order as [|y order IH]; simpl; [done|]. case_decide; lia.
Qed.

Lemma rank_of_lt order x y :
  NoDup order -> finished_before edge order ->
  x ∈ order -> edge x y -> rank_of order y < rank_of order x.
Proof.
  induction order as [|z order IH]; [by intros _ _ []%elem_of_nil|].
  intros [Hz Hnd]%NoDup_cons [Hedges Hbefore] Hx Hxy. simpl.
  destruct (decide (z = x)) as [->|Hzx].
  - assert (y ∈ order) as Hy by by apply Hedges.
    rewrite decide_False by (by intros ->).
    pose proof (rank_of_le order y). lia.
  - apply elem_of_cons in Hx as [?|Hx]; [done|].
    assert (rank_of order y < rank_of order x) as Hlt by by apply IH.
    case_decide as Hzy; [|done]. subst z.
    assert (rank_of order x ≤ length order) by apply rank_of_le.
    exfalso. revert Hx Hxy Hbefore Hz. clear.
    induction order as [|w order IH]; [by intros []%elem_of_nil|].
    intros Hx Hxy [Hedges Hbefore] Hy. apply not_elem_of_cons in Hy as [? Hy].
    apply elem_of_cons in Hx as [->|Hx].
    + apply Hy. by apply Hedges.
    + by apply IH.
Qed.

End chains.

Lemma index_lookup (x : list N) (l : list (list N)) (i : nat) :
  index x l = Some i -> l !! i = Some x.
Proof.
  revert i. induction l as [|y l IH]; intros i; simpl; [done|].
  case_decide as Hy; [by intros [= <-]; subst|].
  destruct (index x l) as [j|]; simpl; [|done].
  intros [= <-]. by apply IH.
Qed.

Section dfs_effect.
Context (graph : gmap (list N) (list (list N))).

Let edge : relation (list N) := fun x y => y ∈ get_list graph x.

(** The effect of a loop over the neighbours [l] of a node. *)
Lemma steps_effect (l : list (list N)) (st st2 : dfs_state) :
  steps (dfs_effect edge) l st st2 ->
  dfs_frame st st2 ∧
  ∃ extra,
    cycles st2 = cycles st ++ extra ∧
    ((∀ n, n ∈ l -> chain edge (path st ++ [n])) ->
     Forall (genuine_cycle edge) extra) ∧
    (extra = [] ->
     ∀ order, finished edge st order ->
              ∃ new, finished edge st2 (new ++ order) ∧
                     ∀ n, n ∈ l -> n ∈ new ++ order).
Proof.
  induction 1 as [st|n l st st1 st2 Hn _ IH].
  - split; [apply dfs_frame_refl|]. exists []. rewrite app_nil_r.
    split; [done|]. split; [by intros _|].
    intros _ order Horder. exists []. split; [done|].
    by intros ? []%elem_of_nil.
  - destruct Hn as (Hframe1 & e1 & Hc1 & Hgen1 & Hfin1).
    destruct IH as (Hframe2 & e2 & Hc2 & Hgen2 & Hfin2).
    split; [by apply dfs_frame_trans with st1|].
    exists (e1 ++ e2). split; [by rewrite Hc2, Hc1, app_assoc|].
    destruct Hframe1 as (_ & _ & Hp1). split.
    + intros Hchains. apply Forall_app. split.
      * apply Hgen1, Hchains. by left.
      * apply Hgen2. intros n' Hn'. rewrite Hp1. apply Hchains. by right.
    + intros [-> ->]%app_eq_nil order Horder.
      destruct (Hfin1 eq_refl order Horder) as (new1 & Horder1 & Hn1).
      destruct (Hfin2 eq_refl _ Horder1) as (new2 & Horder2 & Hl2).
      exists (new2 ++ new1). rewrite <- app_assoc. split; [done|].
      intros n' [->|Hn']%elem_of_cons; [|by apply Hl2].
      apply elem_of_app. by right.
Qed.

Lemma dfs_has_effect (frames : nat) (node : list N) (st st' : dfs_state) :
  dfs graph frames node st = Ok st' -> dfs_effect edge node st st'.
Proof.
  apply dfs_rule; clear frames node st st'.
  - (* the node is on the stack: one report *)
    intros node st i Hstack Hi. split; [by repeat split|].
    eexists. split; [done|]. split; [|done].
    intros Hchain. apply Forall_singleton.
    apply index_lookup in Hi.
    pose proof (lookup_lt_Some _ _ _ Hi) as Hlt.
    exists node, (drop (S i) (path st)).
    rewrite (drop_S _ _ _ Hi). split; [done|].
    change (chain edge ((node :: drop (S i) (path st)) ++ [node])).
    rewrite <- (drop_S _ _ _ Hi), <- drop_app_le by lia.
    by apply chain_drop.
  - (* the node was visited before *)
    intros node st Hstack Hvisited. split; [apply dfs_frame_refl|].
    exists []. rewrite app_nil_r. split; [done|]. split; [done|].
    intros _ order Horder. exists []. split; [done|].
    by apply Horder.
  - (* the node is explored *)
    intros node st st2 path' top Hstack Hvisited Hsteps Hpop Hin.
    apply steps_effect in Hsteps
      as ((Hv & Hs & Hp) & extra & Hc & Hgen & Hfin).
    simpl in *. rewrite Hp, pop_app in Hpop. injection Hpop as <- <-.
    assert (Hstack' : in_stack st2 ∖ {[node]} = in_stack st).
    { rewrite Hs. apply set_eq. intros x.
      rewrite elem_of_difference, elem_of_union, elem_of_singleton.
      split; [tauto|]. intros Hx. split; [by right|]. by intros ->. }
    split.
    { repeat split; simpl; [|done..].
      etrans; [|exact Hv]. apply union_subseteq_r. }
    exists extra. split; [done|]. split.
    + intros Hchain. apply Hgen. intros n Hn. by apply chain_snoc.
    + intros Hextra order (Hmem & Hnd & Hbefore).
      destruct (Hfin Hextra order) as (new & (Hmem2 & Hnd2 & Hbefore2) & Hl).
      { split; [|done]. intros x. rewrite Hmem. simpl.
        rewrite !elem_of_union, !elem_of_singleton.
        destruct (decide (x = node)) as [->|]; tauto. }
      exists (node :: new). simpl. split; [|by left].
      assert (Hfresh : node ∉ new ++ order).
      { rewrite Hmem2, Hs. intros [_ Hnot]. apply Hnot.
        apply elem_of_union. left. by apply elem_of_singleton. }
      split; [|split].
      * intros x. simpl. rewrite elem_of_cons, Hmem2, Hstack', Hs.
        rewrite elem_of_union, elem_of_singleton. split.
        -- intros [->|[? ?]]; [|tauto]. split; [|done].
           apply Hv. apply elem_of_union. left. by apply elem_of_singleton.
        -- intros [? ?]. destruct (decide (x = node)); tauto.
      * by constructor.
      * split; [|done]. intros y Hy. by apply Hl.
Qed.

End dfs_effect.

Lemma check_no_cycles_reports (frames : nat)
    (members : list (list N * member)) (ws : gset (list N))
    (reported : list (list N)) :
  check_no_cycles frames members ws = Ok reported ->
  Forall (genuine_cycle (declares_dependency members ws)) reported ∧
  (reported = [] -> acyclic (declares_dependency members ws)).
Proof.
  unfold check_no_cycles.
  set (graph := build_graph members ws).
  set (edge := fun x y : list N => y ∈ get_list graph x).
  assert (Hloop : ∀ (l : list (list N * member)) st st',
    for_each (fun '(name, _) st =>
                if decide (name ∈ visited st) then Ok st
                else dfs graph frames name
                       {| visited := visited st; in_stack := in_stack st;
                          cycles := cycles st; path := [] |})
             l st = Ok st' ->
    in_stack st = ∅ -> path st = [] ->
    ∃ extra,
      cycles st' = cycles st ++ extra ∧
      Forall (genuine_cycle edge) extra ∧
      (extra = [] ->
       ∀ order, finished edge st order ->
                ∃ new, finished edge st' (new ++ order) ∧
                       ∀ nm, nm ∈ l -> nm.1 ∈ new ++ order)).
  { induction l as [|[name m] l IHl]; intros st st' Hrun Hs Hp.
    - injection Hrun as <-. exists []. rewrite app_nil_r.
      split; [done|]. split; [done|]. intros _ order Horder.
      exists []. split; [done|]. by intros ? []%elem_of_nil.
    - rewrite for_each_cons in Hrun. cbv beta iota in Hrun.
      case_decide as Hvisited.
      + rewrite res_bind_Ok in Hrun.
        destruct (IHl st st' Hrun Hs Hp) as (extra & Hc & Hgen & Hfin).
        exists extra. split; [done|]. split; [done|].
        intros Hextra order Horder.
        destruct (Hfin Hextra order Horder) as (new & Horder' & Hl).
        exists new. split; [done|].
        intros nm [->|Hnm]%elem_of_cons; [|by apply Hl].
        apply elem_of_app. right. apply Horder. simpl.
        split; [done|]. rewrite Hs. apply not_elem_of_empty.
      + destruct (dfs graph frames name _) as [st1| |] eqn:Hdfs; [|done..].
        rewrite res_bind_Ok in Hrun.
        apply dfs_has_effect in Hdfs
          as ((Hv1 & Hs1 & Hp1) & e1 & Hc1 & Hgen1 & Hfin1).
        simpl in *.
        destruct (IHl st1 st' Hrun) as (e2 & Hc2 & Hgen2 & Hfin2);
          [congruence..|].
        exists (e1 ++ e2). split; [by rewrite Hc2, Hc1, app_assoc|]. split.
        * apply Forall_app. split; [by apply Hgen1|done].
        * intros [-> ->]%app_eq_nil order Horder.
          destruct (Hfin1 eq_refl order Horder) as (new1 & Horder1 & Hn1).
          destruct (Hfin2 eq_refl _ Horder1) as (new2 & Horder2 & Hl2).
          exists (new2 ++ new1). rewrite <- app_assoc. split; [done|].
          intros nm [->|Hnm]%elem_of_cons; [|by apply Hl2].
          apply elem_of_app. by right. }
  destruct (for_each _ members _) as [st'| |] eqn:Hrun; simpl; [|done..].
  intros [= <-].
  apply Hloop in Hrun as (extra & Hc & Hgen & Hfin); [|done..].
  simpl in Hc. subst extra. split.
  - eapply Forall_impl; [exact Hgen|].
    intros message (x & between & -> & Hchain). exists x, between.
    split; [done|]. revert Hchain. apply chain_subrel.
    intros a b. apply build_graph_spec.
  - intros Hnone. destruct (Hfin Hnone []) as (order & Horder & Hall).
    { split; [|split; [constructor|done]]. intros x. simpl.
      rewrite elem_of_nil, elem_of_empty. tauto. }
    rewrite app_nil_r in *. destruct Horder as (_ & Hnd & Hbefore).
    apply acyclic_by_rank with (rank_of order). intros a b Hab.
    apply (rank_of_lt edge); [done|done| |by apply build_graph_spec].
    destruct Hab as (m & _ & Hm & _). by apply (Hall (a, m)).
Qed.

(** A reported cycle is a cycle of the graph. *)
Lemma chain_tc (edge : relation (list N)) (x y : list N)
    (between : list (list N)) :
  chain edge (x :: between ++ [y]) -> tc edge x y.
Proof.
  revert x. induction between as [|z between IH]; intros x; simpl.
  - intros [Hxy _]. by apply tc_once.
  - intros [Hxz Hrest]. apply tc_l with z; [done|]. by apply IH.
Qed.

Lemma genuine_cycle_not_acyclic (edge : relation (list N))
    (message : list N) :
  genuine_cycle edge message -> ¬ acyclic edge.
Proof.
  intros (x & between & _ & Hchain) Hacyclic.
  by apply (Hacyclic x), chain_tc with between.
Qed.

(** The only exception [dfs] can raise is [RecursionError]: on a state in
    which [in_stack] holds the nodes of [path], [path.index(node)] finds
    the node, [path.pop()] finds the path not empty and
    [in_stack.remove(node)] finds the node. *)
Lemma dfs_raises (graph : gmap (list N) (list (list N))) (frames : nat)
    (node : list N) (st : dfs_state) :
  (∀ x, x ∈ in_stack st ↔ x ∈ path st) ->
  match dfs graph frames node st with
  | Ok st' => dfs_frame st st'
  | Raise e => e = RecursionError
  | OutOfFuel => False
  end.
Proof.
  revert node st.
  induction frames as [|frames IH]; intros node st Hwf; simpl; [done|].
  case_decide as Hstack.
  { destruct (index_elem_of node (path st)) as [i ->]; [by apply Hwf|].
    by repeat split. }
  case_decide as Hvisited; [apply dfs_frame_refl|].
  set (st1 := {| visited := {[node]} ∪ visited st;
                 in_stack := {[node]} ∪ in_stack st;
                 cycles := cycles st;
                 path := path st ++ [node] |}).
  assert (Hloop : ∀ l cur, dfs_frame st1 cur ->
    match for_each (dfs graph frames) l cur with
    | Ok st2 => dfs_frame st1 st2
    | Raise e => e = RecursionError
    | OutOfFuel => False
    end).
  { induction l as [|n l IHl]; intros cur Hcur; [done|].
    rewrite for_each_cons. destruct Hcur as (Hv & Hs & Hp).
    specialize (IH n cur). destruct (dfs graph frames n cur) as [cur'| |].
    - rewrite res_bind_Ok. apply IHl.
      apply dfs_frame_trans with cur; [done|]. apply IH.
      intros x. rewrite Hs, Hp. simpl.
      rewrite elem_of_union, elem_of_singleton, elem_of_app,
        list_elem_of_singleton, Hwf. tauto.
    - apply IH. intros x. rewrite Hs, Hp. simpl.
      rewrite elem_of_union, elem_of_singleton, elem_of_app,
        list_elem_of_singleton, Hwf. tauto.
    - apply IH. intros x. rewrite Hs, Hp. simpl.
      rewrite elem_of_union, elem_of_singleton, elem_of_app,
        list_elem_of_singleton, Hwf. tauto. }
  specialize (Hloop (get_list graph node) st1 (dfs_frame_refl st1)).
  destruct (for_each (dfs graph frames) (get_list graph node) st1)
    as [st2| |]; simpl; [|done..].
  destruct Hloop as (Hv & Hs & Hp). rewrite Hp. simpl. rewrite pop_app.
  rewrite decide_True by (rewrite Hs; simpl; apply elem_of_union; left;
                          by apply elem_of_singleton).
  repeat split; simpl.
  - etrans; [|exact Hv]. simpl. apply union_subseteq_r.
  - rewrite Hs. simpl. apply set_eq. intros x.
    rewrite elem_of_difference, elem_of_union, elem_of_singleton.
    split; [tauto|]. intros Hx. split; [by right|]. by intros ->.
Qed.

Lemma check_no_cycles_raises (frames : nat)
    (members : list (list N * member)) (ws : gset (list N)) :
  match check_no_cycles frames members ws with
  | Ok _ => True
  | Raise e => e = RecursionError
  | OutOfFuel => False
  end.
Proof.
  unfold check_no_cycles.
  set (graph := build_graph members ws).
  assert (Hloop : ∀ (l : list (list N * member)) st,
    in_stack st = ∅ -> path st = [] ->
    match for_each (fun '(name, _) st =>
                      if decide (name ∈ visited st) then Ok st
                      else dfs graph frames name
                             {| visited := visited st;
                                in_stack := in_stack st;
                                cycles := cycles st; path := [] |})
                   l st with
    | Ok st' => True
    | Raise e => e = RecursionError
    | OutOfFuel => False
    end).
  { induction l as [|[name m] l IHl]; intros st Hs Hp; [done|].
    rewrite for_each_cons. cbv beta iota.
    case_decide as Hvisited; [rewrite res_bind_Ok; by apply IHl|].
    pose proof (dfs_raises graph frames name
                  {| visited := visited st; in_stack := in_stack st;
                     cycles := cycles st; path := [] |}) as Hdfs.
    destruct (dfs graph frames name _) as [st'| |].
    - rewrite res_bind_Ok.
      destruct Hdfs as (_ & Hs' & Hp').
      { intros x. simpl. rewrite Hs, elem_of_empty, elem_of_nil. tauto. }
      simpl in *. apply IHl; congruence.
    - apply Hdfs. intros x. simpl.
      rewrite Hs, elem_of_empty, elem_of_nil. tauto.
    - apply Hdfs. intros x. simpl.
      rewrite Hs, elem_of_empty, elem_of_nil. tauto. }
  specialize (Hloop members
    {| visited := ∅; in_stack := ∅; cycles := []; path := [] |}
    eq_refl eq_refl).
  by destruct (for_each _ members _) as [st'| |].
Qed.

(** X10: [check_no_cycles] decides whether the workspace has a circular
    dependency, as far as the recursion limit lets it.  It returns when
    more frames are left for [dfs] than the graph has nodes; whenever it
    returns, the list is empty exactly when the graph of declared workspace
    dependencies is acyclic; and the only exception it can raise is
    [RecursionError]. *)
Theorem check_no_cycles_decides (frames : nat)
    (members : list (list N * member)) (ws : gset (list N)) :
  (size (graph_nodes members (build_graph members ws)) < frames ->
   ∃ reported, check_no_cycles frames members ws = Ok reported) ∧
  (∀ reported,
     check_no_cycles frames members ws = Ok reported ->
     (reported = [] ↔ acyclic (declares_dependency members ws))) ∧
  (∀ e, check_no_cycles frames members ws = Raise e -> e = RecursionError).
Proof.
  split; [|split].
  - intros Hframes.
    destruct (check_no_cycles_total frames members ws Hframes)
      as (reported & Hrun & _).
    by exists reported.
  - intros reported Hrun.
    destruct (check_no_cycles_reports _ _ _ _ Hrun) as [Hgen Hnone].
    split; [done|]. intros Hacyclic.
    destruct Hgen as [|message rest Hmessage _]; [done|].
    by destruct (genuine_cycle_not_acyclic _ _ Hmessage).
  - intros e Hrun.
    pose proof (check_no_cycles_raises frames members ws) as Hraises.
    by rewrite Hrun in Hraises.
Qed.

(** X11: every description [check_no_cycles] returns is the message of a
    real cycle: a chain that comes back to the package it starts from and
    in which every package declares a workspace dependency on the next.
    The list is returned when more frames are left for [dfs] than the
    graph has nodes. *)
Theorem check_no_cycles_reports_cycles (frames : nat)
    (members : list (list N * member)) (ws : gset (list N)) :
  (size (graph_nodes members (build_graph members ws)) < frames ->
   ∃ reported,
     check_no_cycles frames members ws = Ok reported ∧
     Forall (genuine_cycle (declares_dependency members ws)) reported) ∧
  (∀ reported,
     check_no_cycles frames members ws = Ok reported ->
     Forall (genuine_cycle (declares_dependency members ws)) reported).
Proof.
  split.
  - intros Hframes.
    destruct (check_no_cycles_total frames members ws Hframes)
      as (reported & Hrun & _).
    exists reported. split; [done|].
    exact (proj1 (check_no_cycles_reports _ _ _ _ Hrun)).
  - intros reported Hrun.
    exact (proj1 (check_no_cycles_reports _ _ _ _ Hrun)).
Qed.

(** ** A chain deeper than the recursion limit *)


Section deep_chain.
Context (n : nat).

Let ws := workspace_names_of (deep_chain n).
Let graph := build_graph (deep_chain n) ws.








End deep_chain.


(** ** The linter as a whole *)

Section simple_checks.
Context (message : list N -> member -> list N).

Lemma check_if_nil (test : list N -> member -> bool)
    (members : list (list N * member)) :
  foldl (fun errors '(name, m) =>
           if test name m then errors ++ [message name m] else errors)
        [] members = [] ↔
  ∀ name m, (name, m) ∈ members -> test name m = false.
Proof.
  assert (Hgen : ∀ acc,
    foldl (fun errors '(name, m) =>
             if test name m then errors ++ [message name m] else errors)
          acc members = [] ↔
    acc = [] ∧ ∀ name m, (name, m) ∈ members -> test name m = false).
  { induction members as [|[name m] members IH]; intros acc; simpl.
    - split; [|by intros [? _]]. intros ->. split; [done|].
      by intros ? ? []%elem_of_nil.
    - rewrite IH. split.
      + intros [Hacc Hall]. destruct (test name m) eqn:Htest.
        { by apply app_eq_nil in Hacc as [_ ?]. }
        split; [done|].
        intros n' m' [[= -> ->]|?]%elem_of_cons; [done|by apply Hall].
      + intros [-> Hall]. rewrite (Hall name m) by by left.
        split; [done|]. intros n' m' ?. apply Hall. by right. }
  rewrite Hgen. tauto.
Qed.

Lemma check_decide_nil (cond : list N -> member -> Prop)
    `{∀ name m, Decision (cond name m)} (members : list (list N * member)) :
  foldl (fun errors '(name, m) =>
           if decide (cond name m) then errors ++ [message name m]
           else errors)
        [] members = [] ↔
  ∀ name m, (name, m) ∈ members -> ¬ cond name m.
Proof.
  assert (Heq : ∀ acc,
    foldl (fun errors '(name, m) =>
             if decide (cond name m) then errors ++ [message name m]
             else errors) acc members
    = foldl (fun errors '(name, m) =>
               if bool_decide (cond name m) then errors ++ [message name m]
               else errors) acc members).
  { induction members as [|[name m] members IH]; intros acc; simpl; [done|].
    rewrite IH. f_equal. case_bool_decide; by case_decide. }
  rewrite Heq, (check_if_nil (fun name m => bool_decide (cond name m))).
  split; intros Hall name m Hin; specialize (Hall name m Hin); simpl in *.
  - by apply bool_decide_eq_false in Hall.
  - by apply bool_decide_eq_false.
Qed.

End simple_checks.

Lemma flat_map_nil {A B} (f : A -> list B) (l : list A) :
  flat_map f l = [] ↔ ∀ x, x ∈ l -> f x = [].
Proof.
  induction l as [|x l IH]; simpl.
  - split; [|done]. by intros _ ? []%elem_of_nil.
  - split.
    + intros [Hx Hl]%app_eq_nil y [->|Hy]%elem_of_cons; [done|].
      by apply IH.
    + intros Hall. rewrite (Hall x) by by left. simpl. apply IH.
      intros y Hy. apply Hall. by right.
Qed.

Lemma elem_of_declared (members : list (list N * member)) name m dep :
  (name, m, dep) ∈ declared members ↔
  (name, m) ∈ members ∧ dep ∈ dependencies m.
Proof.
  unfold declared. rewrite list_elem_of_In, in_flat_map. split.
  - intros ([n' m'] & Hin%list_elem_of_In & Hdep%list_elem_of_In).
    apply list_elem_of_fmap in Hdep as (dep' & [= -> -> ->] & Hdep). done.
  - intros [Hin Hdep]. exists (name, m). split; [by apply list_elem_of_In|].
    apply list_elem_of_In, list_elem_of_fmap. by exists dep.
Qed.

Section entries.
Context {A : Type}.
Context (keep : list N -> Prop) `{∀ base, Decision (keep base)}.
Context (entry : list N -> member -> list N -> A).

(** A pair of nested loops that appends one entry for every dependency
    whose normalized name passes the test. *)
Lemma nested_loops (members : list (list N * member)) (acc : list A) :
  foldl (fun acc '(name, m) =>
           foldl (fun acc dep =>
                    if decide (keep (parse_dep_name dep))
                    then acc ++ [entry name m dep] else acc)
                 acc (dependencies m))
        acc members
  = acc ++ ((fun e => entry e.1.1 e.1.2 e.2) <$>
            filter (fun e => keep (parse_dep_name e.2)) (declared members)).
Proof.
  revert acc. induction members as [|[name m] members IH]; intros acc.
  - simpl. by rewrite app_nil_r.
  - simpl. rewrite IH, filter_app, fmap_app, app_assoc. f_equal.
    generalize acc. clear IH.
    induction (dependencies m) as [|dep deps IHd]; intros acc'; simpl.
    + by rewrite app_nil_r.
    + rewrite IHd, filter_cons. simpl.
      case_decide; simpl; by rewrite <- ?app_assoc.
Qed.

End entries.

(** X12: every dependency entry of a manifest is accounted for exactly
    once: when its normalized name is a workspace name it is an edge of the
    graph, otherwise it is reported by [check_no_external_deps]; the edges
    and the reports keep the order of the manifests. *)
Theorem dependency_entries_partition (members : list (list N * member)) :
  check_no_external_deps members (workspace_names_of members)
    = (fun e => external_dep_message e.1.1 e.2 (toml_path e.1.2)) <$>
      filter (fun e => parse_dep_name e.2 ∉ workspace_names_of members)
             (declared members) ∧
  dep_graph_edges members
    = (fun e => (e.1.1, parse_dep_name e.2)) <$>
      filter (fun e => parse_dep_name e.2 ∈ workspace_names_of members)
             (declared members) ∧
  length (check_no_external_deps members (workspace_names_of members))
    + length (dep_graph_edges members)
    = length (declared members).
Proof.
  assert (Herrors :
    check_no_external_deps members (workspace_names_of members)
    = (fun e => external_dep_message e.1.1 e.2 (toml_path e.1.2)) <$>
      filter (fun e => parse_dep_name e.2 ∉ workspace_names_of members)
             (declared members)).
  { exact (nested_loops (fun base => base ∉ workspace_names_of members)
             (fun name m dep => external_dep_message name dep (toml_path m))
             members []). }
  assert (Hedges :
    dep_graph_edges members
    = (fun e => (e.1.1, parse_dep_name e.2)) <$>
      filter (fun e => parse_dep_name e.2 ∈ workspace_names_of members)
             (declared members)).
  { exact (nested_loops (fun base => base ∈ workspace_names_of members)
             (fun name m dep => (name, parse_dep_name dep)) members []). }
  split; [done|]. split; [done|].
  rewrite Herrors, Hedges, !length_fmap. clear Herrors Hedges.
  induction (declared members) as [|e l IH]; [done|].
  rewrite !filter_cons.
  destruct (decide (parse_dep_name e.2 ∈ workspace_names_of members));
    [rewrite decide_False by tauto|rewrite decide_True by done];
    simpl; lia.
Qed.

Lemma fmap_nil_iff {A B} (f : A -> B) (l : list A) :
  f <$> l = [] ↔ l = [].
Proof. split; [apply fmap_nil_inv|by intros ->]. Qed.

Lemma classify_member_cases (p : rel_toml) :
  classify_member p = Some (lit "app") ∨
  classify_member p = Some (lit "lib") ∨
  classify_member p = None.
Proof. unfold classify_member. repeat case_decide; auto. Qed.

Lemma direction_violations_nil (members : list (list N * member))
    (ws : gset (list N)) :
  direction_violations members ws = [] ↔
  ∀ name m dep,
    (name, m) ∈ members -> dep ∈ dependencies m ->
    parse_dep_name dep ∈ ws -> parse_dep_name dep ∈ app_names_of members ->
    classify_member (toml_path m) = None.
Proof.
  unfold direction_violations. rewrite flat_map_nil. split.
  - intros Hnil name m dep Hm Hdep Hws Happ.
    specialize (Hnil (name, m) Hm). simpl in Hnil.
    rewrite flat_map_nil in Hnil. specialize (Hnil dep Hdep).
    unfold violations_of in Hnil. cbv zeta in Hnil.
    rewrite decide_True in Hnil by done.
    destruct (classify_member_cases (toml_path m)) as [Hk|[Hk|Hk]];
      [exfalso..|done]; rewrite Hk in Hnil.
    + by rewrite decide_True in Hnil by done.
    + rewrite decide_False in Hnil by (by intros [[=] _]).
      by rewrite decide_True in Hnil by done.
  - intros Hall [name m] Hm. rewrite flat_map_nil. intros dep Hdep.
    unfold violations_of. cbv zeta. case_decide as Hws; [|done].
    destruct (decide (parse_dep_name dep ∈ app_names_of members))
      as [Happ|Happ].
    + rewrite (Hall name m dep Hm Hdep Hws Happ).
      by rewrite !decide_False by (by intros [[=] _]).
    + by rewrite !decide_False by tauto.
Qed.


Lemma check_no_external_deps_nil (members : list (list N * member))
    (ws : gset (list N)) :
  check_no_external_deps members ws = [] ↔
  ∀ name m dep,
    (name, m) ∈ members -> dep ∈ dependencies m -> parse_dep_name dep ∈ ws.
Proof.
  assert (Heq : check_no_external_deps members ws
    = (fun e => external_dep_message e.1.1 e.2 (toml_path e.1.2)) <$>
      filter (fun e => parse_dep_name e.2 ∉ ws) (declared members)).
  { exact (nested_loops (fun base => base ∉ ws)
             (fun name m dep => external_dep_message name dep (toml_path m))
             members []). }
  rewrite Heq, fmap_nil_iff. split.
  - intros Hnil name m dep Hm Hdep.
    destruct (decide (parse_dep_name dep ∈ ws)) as [|Hout]; [done|].
    exfalso. apply (not_elem_of_nil (name, m, dep)). rewrite <- Hnil.
    apply list_elem_of_filter. split; [done|]. by apply elem_of_declared.
  - intros Hall.
    destruct (filter _ (declared members)) as [|[[name m] dep] l] eqn:Hf;
      [done|].
    assert (Hin : (name, m, dep) ∈ filter (fun e => parse_dep_name e.2 ∉ ws)
                                          (declared members))
      by (rewrite Hf; by left).
    apply list_elem_of_filter in Hin as [Hout [Hm Hdep]%elem_of_declared].
    exfalso. apply Hout. simpl. by apply (Hall name m).
Qed.

Lemma check_no_member_tool_overrides_nil
    (load_toml : rel_toml -> pyproject) (members : list (list N * member)) :
  check_no_member_tool_overrides load_toml members = [] ↔
  ∀ name m, (name, m) ∈ members ->
            tool_ruff (load_toml (toml_path m)) = false ∧
            tool_pytest (load_toml (toml_path m)) = false.
Proof.
  unfold check_no_member_tool_overrides.
  assert (Hgen : ∀ acc,
    foldl (fun errors '(name, m) =>
             let data := load_toml (toml_path m) in
             let errors :=
               if tool_ruff data then errors ++ [ruff_message name]
               else errors in
             if tool_pytest data then errors ++ [pytest_message name]
             else errors)
          acc members = [] ↔
    acc = [] ∧ ∀ name m, (name, m) ∈ members ->
                 tool_ruff (load_toml (toml_path m)) = false ∧
                 tool_pytest (load_toml (toml_path m)) = false).
  { induction members as [|[name m] members IH]; intros acc; simpl.
    - split; [|by intros [? _]]. intros ->. split; [done|].
      by intros ? ? []%elem_of_nil.
    - rewrite IH. split.
      + intros [Hacc Hall].
        destruct (tool_ruff (load_toml (toml_path m))) eqn:Hruff,
          (tool_pytest (load_toml (toml_path m))) eqn:Hpytest;
          try (by apply app_eq_nil in Hacc as [_ ?]).
        split; [done|].
        intros n' m' [[= -> ->]|?]%elem_of_cons;
          [by rewrite Hruff, Hpytest|by apply (Hall n')].
      + intros [-> Hall].
        destruct (Hall name m) as [-> ->]; [by left|].
        split; [done|]. intros n' m' ?. apply (Hall n'). by right. }
  rewrite Hgen. tauto.
Qed.

Lemma check_deps_errors_nil (load_toml : rel_toml -> pyproject)
    (root_requires : list N) (root_sources : bool)
    (members : list (list N * member)) (circular : list (list N)) :
  (circular = [] ↔
   acyclic (declares_dependency members (workspace_names_of members))) ->
  check_no_external_deps members (workspace_names_of members)
    ++ check_no_member_python_version load_toml members
    ++ check_requires_python load_toml members root_requires
    ++ circular
    ++ check_build_backend load_toml members
    ++ check_dependency_direction members (workspace_names_of members)
    ++ check_no_root_sources root_sources
    ++ check_no_member_tool_overrides load_toml members
    ++ check_no_member_optional_deps load_toml members
    ++ check_naming_convention members = [] ↔
  well_formed load_toml root_requires root_sources members.
Proof.
  intros Hcircular. rewrite !app_nil.
  rewrite check_no_external_deps_nil, check_no_member_tool_overrides_nil.
  unfold check_no_member_python_version, check_requires_python,
    check_build_backend, check_no_member_optional_deps,
    check_naming_convention.
  rewrite (check_if_nil
             (fun name m => python_version_message name (toml_path m))
             (fun _ m => python_version_file (load_toml (toml_path m)))).
  rewrite (check_if_nil (fun name _ => optional_deps_message name)
             (fun _ m => optional_dependencies (load_toml (toml_path m)))).
  rewrite (check_decide_nil
             (fun name m => requires_python_message name
                              (requires_python (load_toml (toml_path m)))
                              root_requires)
             (fun _ m =>
                truthy (requires_python (load_toml (toml_path m))) = true ∧
                requires_python (load_toml (toml_path m)) ≠ root_requires)).
  rewrite (check_decide_nil
             (fun name m => build_backend_message name
                              (build_backend (load_toml (toml_path m))))
             (fun _ m => build_backend (load_toml (toml_path m))
                         ≠ REQUIRED_BUILD_BACKEND)).
  rewrite (check_decide_nil
             (fun name m => naming_message name (parent_name (toml_path m)))
             (fun name m => name ≠ parent_name (toml_path m))).
  rewrite check_dependency_direction_render, fmap_nil_iff,
    direction_violations_nil.
  split.
  - intros (Hext & Hpy & Hreq & Hcirc & Hbackend & Hdir & Hroot & Htool
            & Hopt & Hname).
    split; try done.
    + intros name m Hm. specialize (Hreq name m Hm). simpl in Hreq.
      destruct (requires_python (load_toml (toml_path m))) as [|c r];
        [by left|right].
      destruct (decide (c :: r = root_requires)); [done|].
      exfalso. by apply Hreq.
    + by apply Hcircular.
    + intros name m Hm. specialize (Hbackend name m Hm). simpl in Hbackend.
      by destruct (decide (build_backend (load_toml (toml_path m))
                           = REQUIRED_BUILD_BACKEND)).
    + by destruct root_sources.
    + intros name m Hm. specialize (Hname name m Hm). simpl in Hname.
      by destruct (decide (name = parent_name (toml_path m))).
  - intros [Hext Hpy Hreq Hcirc Hbackend Hdir Hroot Htool Hopt Hname].
    split; [done|]. split; [done|]. split.
    { intros name m Hm [Htruthy Hne]. simpl in *.
      destruct (Hreq name m Hm) as [Hr|Hr]; [|done].
      by rewrite Hr in Htruthy. }
    split; [by apply Hcircular|]. split.
    { intros name m Hm Hne. simpl in *. by apply Hne, (Hbackend name). }
    split; [done|]. split; [by rewrite Hroot|].
    split; [done|]. split; [done|].
    intros name m Hm Hne. simpl in *. by apply Hne, Hname.
Qed.


Lemma size_list_to_set_le (l : list (list N)) :
  size (list_to_set l : gset (list N)) ≤ length l.
Proof.
  induction l as [|x l IH]; simpl; [done|].
  rewrite size_union_alt, size_singleton.
  pose proof (subseteq_size (list_to_set l ∖ {[x]}) (list_to_set l : gset _))
    as Hle.
  assert (list_to_set l ∖ {[x]} ⊆ (list_to_set l : gset (list N))) as Hsub.
  { intros y. rewrite elem_of_difference. tauto. }
  specialize (Hle Hsub). lia.
Qed.

(** The graph of a workspace has no more nodes than the workspace has
    members. *)
Lemma graph_nodes_members (members : list (list N * member)) :
  size (graph_nodes members
          (build_graph members (workspace_names_of members)))
  ≤ length members.
Proof.
  etrans; [|etrans; [apply (size_list_to_set_le members.*1)|]];
    [|by rewrite length_fmap].
  apply subseteq_size. intros x.
  unfold graph_nodes. rewrite elem_of_union.
  intros [Hx|Hx]; [done|].
  apply range_names_elem in Hx as (a & Hx).
  apply build_graph_spec in Hx as (m & dep & _ & _ & _ & Hws).
  exact Hws.
Qed.

(** X14: check_deps.py runs its checks to the end when the workspace has
    fewer members than frames are left for the traversal of
    [check_no_cycles], and the only exception that can end it before is
    [RecursionError].  When the checks return, the script exits with
    status 0 exactly on the workspaces that meet all ten conventions: no
    dependency outside the workspace, no [.python-version] beside a member,
    a [requires-python] that is absent or equal to the root's, no circular
    dependency, the build backend [uv_build] everywhere, no app or library
    depending on an app, no [tool.uv.sources] in the root, no [tool.ruff]
    or [tool.pytest] in a member, no optional dependencies in a member,
    and every package named after its directory. *)
Theorem check_deps_passes_iff (frames : nat)
    (load_toml : rel_toml -> pyproject)
    (root_requires : list N) (root_sources : bool)
    (members : list (list N * member)) :
  (length members < frames ->
   ∃ all_errors,
     CheckDeps.main frames load_toml root_requires root_sources members
       = Ok all_errors) ∧
  (∀ all_errors,
     CheckDeps.main frames load_toml root_requires root_sources members
       = Ok all_errors ->
     (CheckDeps.exit_status all_errors = 0%Z ↔
      well_formed load_toml root_requires root_sources members)) ∧
  (∀ e,
     CheckDeps.main frames load_toml root_requires root_sources members
       = Raise e ->
     e = RecursionError).
Proof.
  unfold CheckDeps.main.
  pose proof (check_no_cycles_raises frames members
                (workspace_names_of members)) as Hraises.
  split; [|split].
  - intros Hframes.
    destruct (check_no_cycles_total frames members
                (workspace_names_of members))
      as (circular & -> & _).
    { eapply Nat.le_lt_trans; [apply graph_nodes_members|done]. }
    rewrite res_bind_Ok. by eexists.
  - intros all_errors.
    destruct (check_no_cycles frames members (workspace_names_of members))
      as [circular| |] eqn:Hrun; simpl; [|done..].
    intros [= <-].
    assert (Hstatus : ∀ errors : list (list N),
              CheckDeps.exit_status errors = 0%Z ↔ errors = []).
    { by intros [|??]. }
    rewrite Hstatus. apply check_deps_errors_nil.
    destruct (check_no_cycles_reports _ _ _ _ Hrun) as [Hgen Hnone].
    split; [done|]. intros Hacyclic.
    destruct Hgen as [|message rest Hmessage _]; [done|].
    by destruct (genuine_cycle_not_acyclic _ _ Hmessage).
  - intros e.
    destruct (check_no_cycles frames members (workspace_names_of members))
      as [circular| |]; simpl; [done| |done].
    by intros [= <-].
Qed.

(** ** The output of detect_changes.py *)

Lemma test_paths_loop (members : list (list N * member))
    (names test : list (list N)) :
  Forall (fun name => name ∈ members.*1) names ->
  for_each
    (fun name test_paths =>
       match dict_get members name with
       | None => Raise KeyError
       | Some m => Ok (test_paths ++ [pkg_dir_of (toml_path m)])
       end)
    names test
  = Ok (test ++ (listed_dir members <$> names)).
Proof.
  intros Hnames. revert test.
  induction Hnames as [|name names Hname _ IH]; intros test; simpl.
  - by rewrite app_nil_r.
  - unfold listed_dir.
    destruct (dict_get_is_Some members name Hname) as [m ->]. simpl.
    rewrite IH. by rewrite <- app_assoc.
Qed.

Lemma detect_changes_main_total (members : list (list N * member))
    (changed_files : list (list N)) :
  ∃ detected,
    DetectChanges.main members changed_files = Some detected ∧
    detected ⊆ workspace_names_of members ∧
    (existsb is_infra_file changed_files = false ->
     main false members changed_files = Some (detected, false)).
Proof.
  unfold DetectChanges.main.
  destruct (existsb DetectChanges.is_root_change changed_files) eqn:Hroot.
  - exists (workspace_names_of members). split; [done|]. split; [done|].
    intros Hinfra. apply existsb_exists in Hroot as (f & Hf & Hroot).
    apply is_root_change_infra in Hroot.
    assert (existsb is_infra_file changed_files = true) as Htrue
      by (apply existsb_exists; by exists f).
    by rewrite Htrue in Hinfra.
  - destruct (expand_dependents_exact (build_reverse_deps members)
                (directly_changed_of changed_files members))
      as (r & Hr & _).
    exists r. split; [done|]. split.
    + apply (expand_dependents_members members _ _
               (directly_changed_members changed_files members) Hr).
    + intros Hinfra.
      destruct (main_no_infra members changed_files Hinfra)
        as (r' & Hmain & Hr').
      rewrite Hr in Hr'. by injection Hr' as <-.
Qed.

(** X15: detect_changes.py always produces its output: the lookup
    [members[name]] in its last loop cannot fail.  The packages it lists
    are in ascending order, each with the directory of its manifest, and
    each of them is also listed by affected.py on the same input; when no
    changed file is an infrastructure file for affected.py, the two scripts
    print the same packages and the same test paths. *)
Theorem detect_changes_output_ok (src_exists : list N -> bool)
    (members : list (list N * member)) (changed_files : list (list N)) :
  ∃ det out,
    detect_changes_output members changed_files = Ok det ∧
    affected_output src_exists false members changed_files = Ok out ∧
    Sorted str_order (det_changed det) ∧
    det_test_paths det = listed_dir members <$> det_changed det ∧
    det_changed det ⊆ out_packages out ∧
    (existsb is_infra_file changed_files = false ->
     det_changed det = out_packages out ∧
     det_test_paths det = out_test_paths out).
Proof.
  destruct (detect_changes_main_total members changed_files)
    as (detected & Hdet & Hsub & Hsame).
  destruct (main_total false members changed_files)
    as (affected & run_all & Hmain).
  pose proof (main_affected_members _ _ _ _ _ Hmain) as Hmembers.
  assert (Hperm : ∀ X : gset (list N), sorted (elements X) ≡ₚ elements X)
    by (intros X; apply merge_sort_Permutation).
  assert (Hnames : ∀ X : gset (list N), X ⊆ workspace_names_of members ->
            Forall (fun name => name ∈ members.*1) (sorted (elements X))).
  { intros X HX. apply Forall_forall. intros name Hname.
    rewrite Hperm in Hname. apply elem_of_elements, HX in Hname.
    by apply elem_of_list_to_set in Hname. }
  eexists. eexists.
  unfold detect_changes_output, affected_output, build_output.
  rewrite Hdet, Hmain.
  rewrite (test_paths_loop _ _ [] (Hnames _ Hsub)).
  rewrite (build_output_paths _ _ _ [] [] [] (Hnames _ Hmembers)).
  split; [reflexivity|]. split; [reflexivity|]. simpl.
  split; [apply Sorted_merge_sort, _|]. split; [done|]. split.
  - intros name. rewrite !Hperm, !elem_of_elements. intros Hname.
    destruct (existsb is_infra_file changed_files) eqn:Hinfra.
    + rewrite (main_infra _ _ _ Hinfra) in Hmain.
      injection Hmain as <- _. by apply Hsub.
    + rewrite (Hsame eq_refl) in Hmain. by injection Hmain as <- _.
  - intros Hinfra. rewrite (Hsame Hinfra) in Hmain.
    by injection Hmain as <- _.
Qed.
